(** * container_utils: generic utilities over the standard containers

    A shallow embedding of [include/container_utils.h] (namespace mili):
    the overloads of [find] and [contains], [insert_into], the
    [ContainerAdapter] hierarchy, [copy_container] and the
    [AutonomousIterator] class template.

    Conventions of the embedding.
    - A container is represented by the sequence of its elements in
      traversal order ([c.begin()] to [c.end()]).  A [std::vector] and a
      [std::list] are plain lists; a [std::set] and a [std::map] are lists
      kept ordered by their comparison object.
    - An iterator is the position it designates, counted from [c.begin()];
      [c.end()] is the length of the sequence.  A reference [*it] is the
      position of the element it designates.
    - A function declared [throw(ElementNotFound)] returns an [outcome].
    - Overloads of one C++ name live in one module per overload set
      ([Generic], [Vector], [List_], [Set_], [Map]); the const and the
      non-const overload of a function have the same embedding.
    - A template parameter is a type variable.  Where a parameter of type
      [const Key2&] is passed on to a function that takes a [const Key&],
      the implicit conversion the call performs is written [convert]. *)

From Stdlib Require Import ZArith QArith List Bool Lia.
Import ListNotations.
Open Scope Z_scope.

(** ** Exceptions *)

(** [struct ElementNotFound : std::exception {}] is the only exception the
    header declares. *)
Inductive exception : Type := ElementNotFound.

Inductive outcome (A : Type) : Type :=
| Returned (a : A)
| Thrown (e : exception).
Arguments Returned {A} a.
Arguments Thrown {A} e.

Definition bind {A B : Type} (m : outcome A) (k : A -> outcome B) : outcome B :=
  match m with
  | Returned a => k a
  | Thrown e => Thrown e
  end.

(** [try { body } catch (ElementNotFound) { handler }] *)
Definition try_catch {A : Type} (body : outcome A)
    (handler : exception -> outcome A) : outcome A :=
  match body with
  | Returned a => Returned a
  | Thrown e => handler e
  end.

Notation "m ;; k" := (bind m (fun _ => k))
  (at level 61, right associativity).

(** ** Iterators, references and pointers *)

Definition iterator : Type := Z.
Definition reference : Type := Z.

(** A pointer value is an address; [NULL] is the address zero. *)
Definition pointer : Type := Z.
Definition NULL : pointer := 0.

(** The tag type [std::nothrow_t] and its value [std::nothrow]. *)
Inductive nothrow_t : Type := nothrow.

(** ** Implicit conversions *)

(** The implicit conversion of an argument of type [From] to a parameter
    of type [const To&]. *)
Class ImplicitConversion (From To : Type) : Type :=
  convert : From -> To.

(** An argument that has the type of the parameter is passed as it is. *)
#[export] Instance same_type (A : Type) : ImplicitConversion A A :=
  fun a => a.

(** An [unsigned short] converted to [int]: the value is kept. *)
#[export] Instance unsigned_to_int : ImplicitConversion nat Z :=
  Z.of_nat.

(** A [double] converted to [int]: the fractional part is discarded.  The
    number is given by the rational it holds. *)
#[export] Instance floating_to_int : ImplicitConversion Q Z :=
  fun q => Z.quot (Qnum q) (Z.pos (Qden q)).

(** [a == n] on an [int] and an [unsigned short]: [n] is promoted to
    [int].  [a == q] on an [int] and a [double]: [a] is converted to
    [double]. *)
Definition int_eq_unsigned (a : Z) (n : nat) : bool := Z.eqb a (Z.of_nat n).
Definition int_eq_floating (a : Z) (q : Q) : bool := Qeq_bool (inject_Z a) q.

(** The operations [AutonomousIterator] needs from its parameter [T]. *)
Class Iterator (T : Type) : Type := {
  incr : T -> T;                 (* ++it *)
  decr : T -> T;                 (* --it *)
  iter_eqb : T -> T -> bool;     (* it == other *)
  star : T -> reference          (* *it *)
}.

#[export] Instance position_iterator : Iterator iterator := {|
  incr it := it + 1;
  decr it := it - 1;
  iter_eqb := Z.eqb;
  star it := it
|}.

(** ** Sequences: what the header uses of a container *)

Section Sequence.
Context {Value : Type}.

Definition begin (c : list Value) : iterator := 0.
Definition end_ (c : list Value) : iterator := Z.of_nat (length c).
Definition size (c : list Value) : Z := Z.of_nat (length c).

(** [*it] *)
Definition deref (it : iterator) : reference := star it.

(** The element a reference designates; [None] when the position is
    outside the container (reading it is undefined in the source). *)
Definition read (c : list Value) (r : reference) : option Value :=
  if r <? 0 then None else nth_error c (Z.to_nat r).

(** [c.push_back(x)] on a vector or a list *)
Definition push_back (c : list Value) (x : Value) : list Value := c ++ [x].

(** [c.back()]: a reference to the last element *)
Definition back (c : list Value) : reference := deref (decr (end_ c)).

(** A full traversal [for (it = c.begin(); it != c.end(); ++it) *it]. *)
Fixpoint traverse_from (steps : nat) (c : list Value) (it : iterator) : list Value :=
  match steps with
  | O => []
  | S steps' =>
      if it =? end_ c then []
      else match read c (deref it) with
           | Some x => x :: traverse_from steps' c (incr it)
           | None => []
           end
  end.

Definition traversal (c : list Value) : list Value :=
  traverse_from (length c) c (begin c).
End Sequence.

(** ** <algorithm> *)

Section Algorithm.
Context {Value Element : Type}.
(** [*first == value] *)
Variable eqb : Value -> Element -> bool.

(** [std::find(first, last, value)] over the range whose elements are
    [range] and whose first position is [first]: the first position
    whose element compares equal to [value], or [last]. *)
Fixpoint std_find (range : list Value) (first : iterator) (value : Element) : iterator :=
  match range with
  | [] => first
  | x :: rest =>
      if eqb x value then first else std_find rest (incr first) value
  end.
End Algorithm.

Section Copy.
Context {Value : Type}.

(** [std::copy(first, last, std::back_insert_iterator<C2>(c2))]: each
    assignment through the output iterator is a [c2.push_back]. *)
Fixpoint std_copy_back_insert (range : list Value) (c2 : list Value) : list Value :=
  match range with
  | [] => c2
  | x :: rest => std_copy_back_insert rest (push_back c2 x)
  end.
End Copy.

(** ** find and contains: the generic overloads *)

Module Generic.
Section Generic.
(** [Value] is [Container::value_type]. *)
Context {Value Element : Type}.
(** [*it == element] *)
Variable eqb : Value -> Element -> bool.

(** [Element& find(Container& c, const Element& element) throw(ElementNotFound)]:
    the outcome designates the element [*it] at which the scan stopped. *)
Definition find (c : list Value) (element : Element) : outcome reference :=
  let it := std_find eqb c (begin c) element in
  if it =? end_ c then Thrown ElementNotFound
  else Returned (deref it).

(** [bool contains(const Container& c, const Element& element)] *)
Definition contains (c : list Value) (element : Element) : outcome bool :=
  try_catch (find c element ;; Returned true)
            (fun _ => Returned false).
End Generic.

Section GenericInsert.
Context {Element : Type}.

(** [void insert_into(Container& cont, const ElementType& element)]
    ("This works for vectors and lists") *)
Definition insert_into (cont : list Element) (element : Element) : list Element :=
  push_back cont element.
End GenericInsert.

Section GenericNothrow.
Context {Value Element : Type}.
Variable eqb : Value -> Element -> bool.
(** The conversion of [*it] to [Element*] that [return *it;] asks for. *)
Variable to_pointer : Value -> pointer.

(** [Element* find(Container& c, const Element& element, const std::nothrow_t&)] *)
Definition find_nothrow (c : list Value) (element : Element) (_ : nothrow_t) : pointer :=
  let it := std_find eqb c (begin c) element in
  if it =? end_ c then NULL
  else match read c (deref it) with
       | Some v => to_pointer v
       | None => NULL
       end.
End GenericNothrow.
End Generic.

(** ** contains: the vector and list overloads *)

Module Vector.
Section Vector.
Context {Element : Type}.
Variable eqb : Element -> Element -> bool.

(** [bool contains(const std::vector<Element>& v, const Element& element)]:
    [Element] is deduced from both parameters, so the overload serves an
    argument of the element type; any other argument goes to the generic
    overload. *)
Definition contains (v : list Element) (element : Element) : bool :=
  negb (std_find eqb v (begin v) element =? end_ v).
End Vector.
End Vector.

Module List_.
Section List_.
Context {Element : Type}.
Variable eqb : Element -> Element -> bool.

(** [bool contains(const std::list<Element>& l, const Element& element)]:
    as for the vector. *)
Definition contains (l : list Element) (element : Element) : bool :=
  negb (std_find eqb l (begin l) element =? end_ l).
End List_.
End List_.

(** ** The ordered associative containers

    [std::set<Key, Comp>] and [std::map<Key, T, Comp>] keep their elements
    ordered by the comparison object [comp]; two keys are equivalent when
    neither is ordered before the other, and no two elements have
    equivalent keys.  The lookups below are those of the standard library:
    search for the lower bound of the key, then test the element there. *)

Section Tree.
Context {Key Value : Type}.
(** The key of an element: the element itself in a set, [first] in a map. *)
Variable key_of : Value -> Key.
(** [comp a b]: [a] is ordered before [b]. *)
Variable comp : Key -> Key -> bool.

(** The first position whose key is not ordered before [k]. *)
Fixpoint lower_bound (range : list Value) (first : iterator) (k : Key) : iterator :=
  match range with
  | [] => first
  | x :: rest =>
      if comp (key_of x) k then lower_bound rest (incr first) k else first
  end.

(** [t.find(k)] *)
Definition tree_find (t : list Value) (k : Key) : iterator :=
  let j := lower_bound t (begin t) k in
  if j =? end_ t then end_ t
  else match read t (deref j) with
       | Some x => if comp k (key_of x) then end_ t else j
       | None => end_ t
       end.

(** [t.count(k)] *)
Definition tree_count (t : list Value) (k : Key) : Z :=
  if tree_find t k =? end_ t then 0 else 1.

(** [t.insert(v)]: [v] goes to its place in the order unless an element
    with an equivalent key is there already. *)
Fixpoint tree_insert (t : list Value) (v : Value) : list Value :=
  match t with
  | [] => [v]
  | x :: rest =>
      if comp (key_of x) (key_of v) then x :: tree_insert rest v
      else if comp (key_of v) (key_of x) then v :: t
      else t
  end.

(** The representation invariant: each key is ordered before the next. *)
Fixpoint ordered (t : list Value) : bool :=
  match t with
  | [] => true
  | x :: rest =>
      match rest with
      | [] => true
      | y :: _ => comp (key_of x) (key_of y) && ordered rest
      end
  end.
End Tree.

Module Set_.
Section Set_.
Context {Key : Type}.
Variable comp : Key -> Key -> bool.

(** The members [count] and [insert] take a [const Key&]. *)
Definition count (s : list Key) (key : Key) : Z := tree_count (fun x => x) comp s key.
Definition insert (s : list Key) (x : Key) : list Key := tree_insert (fun x => x) comp s x.
Definition well_formed (s : list Key) : bool := ordered (fun x => x) comp s.

(** [bool contains(const std::set<Key, Comp, Alloc>& s, const Key2& key)] *)
Definition contains {Key2 : Type} `{ImplicitConversion Key2 Key}
    (s : list Key) (key : Key2) : bool :=
  0 <? count s (convert key).

(** [void insert_into(std::set<ElementType, Comp, Alloc>& cont, const ElementType& element)] *)
Definition insert_into (cont : list Key) (element : Key) : list Key :=
  insert cont element.
End Set_.
End Set_.

Module Map.
Section Map.
Context {Key T : Type}.
Variable comp : Key -> Key -> bool.

(** The members [find] and [count] take a [const Key&]. *)
Definition find_ (m : list (Key * T)) (key : Key) : iterator := tree_find fst comp m key.
Definition count (m : list (Key * T)) (key : Key) : Z := tree_count fst comp m key.
Definition well_formed (m : list (Key * T)) : bool := ordered fst comp m.

(** [it->second]: a reference to the mapped value of the entry at [it] *)
Definition second (it : iterator) : reference := deref it.

(** The mapped value a reference designates. *)
Definition mapped (m : list (Key * T)) (r : reference) : option T :=
  option_map snd (read m r).

(** [T& find(std::map<Key, T, Comp, Alloc>& m, const Key2& key) throw(ElementNotFound)] *)
Definition find {Key2 : Type} `{ImplicitConversion Key2 Key}
    (m : list (Key * T)) (key : Key2) : outcome reference :=
  let it := find_ m (convert key) in
  if it =? end_ m then Thrown ElementNotFound
  else Returned (second it).

(** [bool contains(const std::map<Key, T, Comp, Alloc>& m, const Key2& key)] *)
Definition contains {Key2 : Type} `{ImplicitConversion Key2 Key}
    (m : list (Key * T)) (key : Key2) : bool :=
  0 <? count m (convert key).
End Map.

Section MapNothrow.
Context {Key : Type}.
Variable comp : Key -> Key -> bool.

(** [T* find(std::map<Key, T*, Comp, Alloc>& m, const Key2& key, const std::nothrow_t&)]:
    the mapped type of [m] is a pointer type. *)
Definition find_nothrow {Key2 : Type} `{ImplicitConversion Key2 Key}
    (m : list (Key * pointer)) (key : Key2) (_ : nothrow_t) : pointer :=
  let it := find_ comp m (convert key) in
  if it =? end_ m then NULL
  else match mapped m (second it) with
       | Some p => p
       | None => NULL
       end.
End MapNothrow.
End Map.

(** ** The insertable handle *)

(** The container types a [ContainerAdapterImpl<T, Impl>] can be
    instantiated with: the body of [insert] calls [container.back()], so
    [Impl] is a type with that member, [std::vector<T>] or
    [std::list<T>]. *)
Inductive Impl (T : Type) : Type :=
| std_vector (items : list T)
| std_list (items : list T).
Arguments std_vector {T} items.
Arguments std_list {T} items.

Definition items_of {T : Type} (cont : Impl T) : list T :=
  match cont with
  | std_vector items | std_list items => items
  end.

(** [struct ContainerAdapter<T>]: the abstract base, one pure virtual
    [T& insert(const T& element)].  A call returns the handle after the
    insertion, with the reference. *)
Class ContainerAdapter (T Handle : Type) : Type := {
  insert : Handle -> T -> Handle * reference
}.

(** [class ContainerAdapterImpl<T, Impl>]: the only data member is
    [Impl& container]. *)
Record ContainerAdapterImpl (T : Type) : Type := ContainerAdapterImpl_ctor {
  container : Impl T
}.
Arguments ContainerAdapterImpl_ctor {T} container.
Arguments container {T} _.

Section Adapter.
Context {T : Type}.

(** [insert_into(container, element)] on the bound container: the generic
    overload for both types. *)
Definition insert_into (cont : Impl T) (element : T) : Impl T :=
  match cont with
  | std_vector v => std_vector (Generic.insert_into v element)
  | std_list l => std_list (Generic.insert_into l element)
  end.

(** [container.back()] *)
Definition back_member (cont : Impl T) : reference :=
  back (items_of cont).

#[export] Instance ContainerAdapterImpl_insert
  : ContainerAdapter T (ContainerAdapterImpl T) := {|
  insert this element :=
    let cont := insert_into (container this) element in
    (ContainerAdapterImpl_ctor cont, back_member cont)
|}.
End Adapter.

(** ** copy_container *)

Section CopyContainer.
Context {Value : Type}.

(** [void copy_container(const C1& c1, C2& c2)]: the new content of [c2].
    [C2] is a type with [push_back], the member
    [std::back_insert_iterator<C2>] calls; [c1] and [c2] are two
    objects. *)
Definition copy_container (c1 : list Value) (c2 : list Value) : list Value :=
  std_copy_back_insert c1 c2.
End CopyContainer.

(** ** Autonomous iterators *)

Module AutonomousIterator.
Section AutonomousIterator.
Context {T : Type} `{Iterator T}.

Record AutonomousIterator : Type := mk {
  _current : T;
  _end : T
}.

(** [AutonomousIterator(const T& begin, const T& end)] *)
Definition ctor (begin end_ : T) : AutonomousIterator :=
  {| _current := begin; _end := end_ |}.

(** [AutonomousIterator(const AutonomousIterator<T>& other)] *)
Definition copy_ctor (other : AutonomousIterator) : AutonomousIterator :=
  {| _current := _current other; _end := _end other |}.

(** [operator++()]: the object after the call, which is also what the
    call returns. *)
Definition pre_incr (this : AutonomousIterator) : AutonomousIterator :=
  {| _current := incr (_current this); _end := _end this |}.

(** [operator++(int)]: the object after the call, and the returned copy. *)
Definition post_incr (this : AutonomousIterator)
  : AutonomousIterator * AutonomousIterator :=
  let ret := copy_ctor this in
  (pre_incr this, ret).

(** [operator--()] *)
Definition pre_decr (this : AutonomousIterator) : AutonomousIterator :=
  {| _current := decr (_current this); _end := _end this |}.

(** [operator--(int)] *)
Definition post_decr (this : AutonomousIterator)
  : AutonomousIterator * AutonomousIterator :=
  let ret := copy_ctor this in
  (pre_decr this, ret).

(** [operator==] *)
Definition equal (this other : AutonomousIterator) : bool :=
  iter_eqb (_current this) (_current other).

(** [operator*] *)
Definition dereference (this : AutonomousIterator) : reference :=
  star (_current this).

(** [operator->] *)
Definition arrow (this : AutonomousIterator) : T := _current this.

(** [bool end() const] *)
Definition end_ (this : AutonomousIterator) : bool :=
  iter_eqb (_current this) (_end this).

(** [n] applications of [operator++()]. *)
Fixpoint advance (n : nat) (this : AutonomousIterator) : AutonomousIterator :=
  match n with
  | O => this
  | S n' => advance n' (pre_incr this)
  end.
End AutonomousIterator.
Arguments AutonomousIterator T : clear implicits.
End AutonomousIterator.

(** ** The generic definition of the specification, on a map

    "Generic fallback: linear scan comparing each element to target by
    equality; first match wins; stops at end-of-container."  On a map the
    target is the lookup argument: it is compared with the key of each
    entry, and the outcome designates the mapped value of the first entry
    that matches. *)

Module LinearScan.
Section LinearScan.
Context {Key Key2 T : Type}.
Variable eqb : Key -> Key2 -> bool.

Definition key_eqb (entry : Key * T) (key : Key2) : bool := eqb (fst entry) key.

Definition find (m : list (Key * T)) (key : Key2) : outcome reference :=
  let it := std_find key_eqb m (begin m) key in
  if it =? end_ m then Thrown ElementNotFound
  else Returned (Map.second it).

Definition contains (m : list (Key * T)) (key : Key2) : outcome bool :=
  try_catch (find m key ;; Returned true)
            (fun _ => Returned false).
End LinearScan.
End LinearScan.

(** ** Comparison objects *)

Section Ordering.
Context {Key : Type}.
Variable comp : Key -> Key -> bool.

(** Two keys are equivalent when neither is ordered before the other. *)
Definition equiv (a b : Key) : bool := negb (comp a b) && negb (comp b a).

(** What the standard asks of a comparison object. *)
Record strict_weak_ordering : Prop := {
  comp_irreflexive : forall a, comp a a = false;
  comp_transitive :
    forall a b c, comp a b = true -> comp b c = true -> comp a c = true;
  equiv_transitive :
    forall a b c, equiv a b = true -> equiv b c = true -> equiv a c = true
}.

(** [operator==] holds of exactly the equivalent keys. *)
Definition agrees_with (eqb : Key -> Key -> bool) : Prop :=
  forall a b, eqb a b = equiv a b.

(** [operator==] holds of a key and a lookup argument exactly when the key
    is equivalent to the argument converted to a key. *)
Definition agrees_through_conversion {Key2 : Type} `{ImplicitConversion Key2 Key}
    (eqb : Key -> Key2 -> bool) : Prop :=
  forall (a : Key) (k : Key2), eqb a k = equiv a (convert k).
End Ordering.

(** An order on the integers that does not tell [z] from [-z]. *)
Definition abs_less (a b : Z) : bool := Z.abs a <? Z.abs b.

(** ** Positions of a scan *)

Section FirstIndex.
Context {Value : Type}.
Variable p : Value -> bool.

(** How many elements a scan passes before the first one that satisfies
    [p]; the length of the list when none does. *)
Fixpoint first_index (l : list Value) : nat :=
  match l with
  | [] => O
  | x :: rest => if p x then O else S (first_index rest)
  end.
End FirstIndex.

(** ** Membership in an ordered container *)

Section TreeMem.
Context {Key Value : Type}.
Variable key_of : Value -> Key.
Variable comp : Key -> Key -> bool.

(** Whether the lower-bound search for [k] ends on an element whose key
    is equivalent to [k]. *)
Fixpoint tree_mem (t : list Value) (k : Key) : bool :=
  match t with
  | [] => false
  | x :: rest =>
      if comp (key_of x) k then tree_mem rest k
      else negb (comp k (key_of x))
  end.
End TreeMem.

(** * Properties *)

(** Positions are integers: the operations on iterators unfold to
    arithmetic. *)
Ltac positions :=
  unfold back; unfold begin, end_, deref;
  cbn [star incr decr iter_eqb position_iterator];
  cbv zeta.

(** An argument of the key type is passed as it is. *)
Ltac same_key := unfold convert, same_type.

Section FirstIndexFacts.
Context {Value : Type}.
Variable p : Value -> bool.

Lemma first_index_le (l : list Value) : (first_index p l <= length l)%nat.
Proof.
  induction l as [|x rest IH]; simpl; [lia|].
  destruct (p x); lia.
Qed.

Lemma first_index_all (l : list Value) :
  first_index p l = length l <-> (forall x, In x l -> p x = false).
Proof.
  induction l as [|x rest IH]; simpl.
  - split; [intros _ y []|reflexivity].
  - destruct (p x) eqn:Hx.
    + split; [discriminate|].
      intros Hall. rewrite (Hall x) in Hx by now left. discriminate.
    + split.
      * intros Hlen y [<-|Hy]; [exact Hx|].
        apply IH; [lia|exact Hy].
      * intros Hall. f_equal. apply IH. intros y Hy. apply Hall. now right.
Qed.

Lemma first_index_hit (l : list Value) :
  (first_index p l < length l)%nat ->
  exists x, nth_error l (first_index p l) = Some x /\ p x = true.
Proof.
  induction l as [|x rest IH]; simpl; [lia|].
  destruct (p x) eqn:Hx; intros Hlt.
  - exists x. split; [reflexivity|exact Hx].
  - apply IH. lia.
Qed.

Lemma first_index_first (l : list Value) (j : nat) (y : Value) :
  (j < first_index p l)%nat -> nth_error l j = Some y -> p y = false.
Proof.
  revert j. induction l as [|x rest IH]; simpl; intros j Hj Hy; [lia|].
  destruct (p x) eqn:Hx; [lia|].
  destruct j as [|j]; simpl in Hy.
  - now injection Hy as <-.
  - apply (IH j); [lia|exact Hy].
Qed.

Lemma first_index_exists (l : list Value) :
  (exists x, In x l /\ p x = true) -> (first_index p l < length l)%nat.
Proof.
  intros (x & Hin & Hx).
  pose proof (first_index_le l) as Hle.
  destruct (Nat.eq_dec (first_index p l) (length l)) as [Heq|Hne]; [|lia].
  rewrite (proj1 (first_index_all l) Heq x Hin) in Hx. discriminate.
Qed.
End FirstIndexFacts.

Section PositionFacts.
Context {Value : Type}.

Lemma read_of_nat (c : list Value) (n : nat) :
  read c (Z.of_nat n) = nth_error c n.
Proof.
  unfold read. destruct (Z.ltb_spec (Z.of_nat n) 0) as [Hneg|_]; [lia|].
  now rewrite Nat2Z.id.
Qed.

Lemma read_In (c : list Value) (r : reference) (x : Value) :
  read c r = Some x -> In x c.
Proof.
  unfold read. destruct (r <? 0); [discriminate|]. apply nth_error_In.
Qed.

Lemma read_bounds (c : list Value) (r : reference) (x : Value) :
  read c r = Some x -> begin c <= r < end_ c.
Proof.
  unfold read, begin, end_.
  destruct (Z.ltb_spec r 0) as [|Hr]; [discriminate|].
  intros Hx. assert (Hlt : (Z.to_nat r < length c)%nat).
  { apply nth_error_Some. rewrite Hx. discriminate. }
  lia.
Qed.
End PositionFacts.

Section ScanFacts.
Context {Value Element : Type}.
Variable eqb : Value -> Element -> bool.

Lemma std_find_position (range : list Value) (first : iterator) (value : Element) :
  std_find eqb range first value
  = first + Z.of_nat (first_index (fun x => eqb x value) range).
Proof.
  revert first. induction range as [|x rest IH]; intros first; simpl.
  - lia.
  - destruct (eqb x value); [lia|]. rewrite IH. lia.
Qed.

Lemma std_find_ext {Element' : Type} (eqb' : Value -> Element' -> bool)
    (range : list Value) (first : iterator)
    (value : Element) (value' : Element') :
  (forall x, eqb x value = eqb' x value') ->
  std_find eqb range first value = std_find eqb' range first value'.
Proof.
  intros Hsame. revert first.
  induction range as [|x rest IH]; intros first; simpl; [reflexivity|].
  rewrite Hsame. now rewrite IH.
Qed.
End ScanFacts.

Section GenericScanFacts.
Context {Value Element : Type}.
Variable eqb : Value -> Element -> bool.

Lemma find_position (c : list Value) (element : Element) :
  Generic.find eqb c element
  = let n := first_index (fun x => eqb x element) c in
    if (n <? length c)%nat then Returned (Z.of_nat n)
    else Thrown ElementNotFound.
Proof.
  unfold Generic.find. rewrite std_find_position. positions.
  pose proof (first_index_le (fun x => eqb x element) c) as Hle.
  destruct (Z.eqb_spec (0 + Z.of_nat (first_index (fun x => eqb x element) c))
                       (Z.of_nat (length c))) as [Heq|Hne];
    destruct (Nat.ltb_spec (first_index (fun x => eqb x element) c) (length c));
    try lia; [reflexivity | f_equal; lia].
Qed.

Lemma contains_of_find (c : list Value) (element : Element) :
  Generic.contains eqb c element
  = match Generic.find eqb c element with
    | Returned _ => Returned true
    | Thrown _ => Returned false
    end.
Proof.
  unfold Generic.contains, try_catch, bind.
  now destruct (Generic.find eqb c element).
Qed.
End GenericScanFacts.

Section GenericFacts.
Context {Element : Type}.
Variable eqb : Element -> Element -> bool.

Lemma vector_contains_of_find (v : list Element) (element : Element) :
  Vector.contains eqb v element
  = match Generic.find eqb v element with
    | Returned _ => true
    | Thrown _ => false
    end.
Proof.
  unfold Vector.contains, Generic.find.
  now destruct (std_find eqb v (begin v) element =? end_ v).
Qed.

Lemma list_contains_of_find (l : list Element) (element : Element) :
  List_.contains eqb l element
  = match Generic.find eqb l element with
    | Returned _ => true
    | Thrown _ => false
    end.
Proof.
  unfold List_.contains, Generic.find.
  now destruct (std_find eqb l (begin l) element =? end_ l).
Qed.

(** C3. The signaling [find] scans the container from its first element,
    comparing each element with the target by [==]: when some element
    matches, it returns a reference to the first one that does; when none
    does, it throws [ElementNotFound]. *)
Theorem find_first_match (c : list Element) (element : Element) :
  ((exists x, In x c /\ eqb x element = true) ->
   exists r x,
     Generic.find eqb c element = Returned r
     /\ read c r = Some x
     /\ eqb x element = true
     /\ forall r' y, begin c <= r' < r -> read c r' = Some y ->
                     eqb y element = false)
  /\ ((forall x, In x c -> eqb x element = false) ->
      Generic.find eqb c element = Thrown ElementNotFound).
Proof.
  rewrite find_position. cbv zeta.
  set (hit := fun x => eqb x element).
  split.
  - intros Hex.
    pose proof (first_index_exists hit c Hex) as Hlt.
    destruct (first_index_hit hit c Hlt) as (x & Hnth & Hx).
    exists (Z.of_nat (first_index hit c)), x.
    apply Nat.ltb_lt in Hlt. rewrite Hlt.
    repeat split; [now rewrite read_of_nat | exact Hx |].
    intros r' y [Hlo Hhi] Hy. unfold begin in Hlo.
    rewrite <- (Z2Nat.id r' Hlo), read_of_nat in Hy.
    apply (first_index_first hit c (Z.to_nat r') y); [lia|exact Hy].
  - intros Hall.
    apply (first_index_all hit c) in Hall. rewrite Hall.
    now rewrite Nat.ltb_irrefl.
Qed.
End GenericFacts.

Lemma find_first_match_witness :
  ((exists x, In x [1; 2; 3] /\ Z.eqb x 2 = true) /\
   exists r x,
     Generic.find Z.eqb [1; 2; 3] 2 = Returned r
     /\ read [1; 2; 3] r = Some x
     /\ Z.eqb x 2 = true
     /\ forall r' y, begin [1; 2; 3] <= r' < r -> read [1; 2; 3] r' = Some y ->
                     Z.eqb y 2 = false)
  /\ ((forall x, In x [1; 2; 3] -> Z.eqb x 9 = false) /\
      Generic.find Z.eqb [1; 2; 3] 9 = Thrown ElementNotFound).
Proof.
  assert (H2 : exists x, In x [1; 2; 3] /\ Z.eqb x 2 = true).
  { exists 2. split; [simpl; tauto | reflexivity]. }
  assert (H9 : forall x, In x [1; 2; 3] -> Z.eqb x 9 = false).
  { intros x [<-|[<-|[<-|[]]]]; reflexivity. }
  split; split.
  - exact H2.
  - exact (proj1 (find_first_match Z.eqb [1; 2; 3] 2) H2).
  - exact H9.
  - exact (proj2 (find_first_match Z.eqb [1; 2; 3] 9) H9).
Defined.

(** The examples of the specification: in the vector [1, 2, 3] the
    signaling [find] of 2 returns a reference to the element 2, and the
    signaling [find] of 9 throws. *)
Example find_example_present :
  Generic.find Z.eqb [1; 2; 3] 2 = Returned 1 /\ read [1; 2; 3] 1 = Some 2.
Proof. split; reflexivity. Qed.

Example find_example_absent :
  Generic.find Z.eqb [1; 2; 3] 9 = Thrown ElementNotFound.
Proof. reflexivity. Qed.

Section TreeFacts.
Context {Key Value : Type}.
Variable key_of : Value -> Key.
Variable comp : Key -> Key -> bool.

(** The test at which the lower-bound search for [k] stops. *)
Local Abbreviation stop k := (fun x : Value => negb (comp (key_of x) k)).

Lemma lower_bound_position (range : list Value) (first : iterator) (k : Key) :
  lower_bound key_of comp range first k
  = first + Z.of_nat (first_index (stop k) range).
Proof.
  revert first. induction range as [|x rest IH]; intros first; simpl.
  - lia.
  - destruct (comp (key_of x) k); simpl; [|lia].
    rewrite IH. lia.
Qed.

Lemma tree_find_position (t : list Value) (k : Key) :
  tree_find key_of comp t k
  = match nth_error t (first_index (stop k) t) with
    | Some x => if comp k (key_of x) then end_ t
                else Z.of_nat (first_index (stop k) t)
    | None => end_ t
    end.
Proof.
  unfold tree_find. rewrite lower_bound_position. positions.
  rewrite Z.add_0_l, read_of_nat.
  destruct (Z.eqb_spec (Z.of_nat (first_index (stop k) t)) (Z.of_nat (length t)))
    as [Heq|_]; [|reflexivity].
  apply Nat2Z.inj in Heq.
  assert (Hnone : nth_error t (first_index (stop k) t) = None).
  { apply nth_error_None. lia. }
  now rewrite Hnone.
Qed.

Lemma tree_mem_nth (t : list Value) (k : Key) :
  tree_mem key_of comp t k
  = match nth_error t (first_index (stop k) t) with
    | Some x => negb (comp k (key_of x))
    | None => false
    end.
Proof.
  induction t as [|x rest IH]; simpl; [reflexivity|].
  destruct (comp (key_of x) k); simpl; [exact IH | reflexivity].
Qed.

Lemma tree_find_mem (t : list Value) (k : Key) :
  tree_find key_of comp t k
  = if tree_mem key_of comp t k then Z.of_nat (first_index (stop k) t)
    else end_ t.
Proof.
  rewrite tree_find_position, tree_mem_nth.
  destruct (nth_error t (first_index (stop k) t)) as [x|]; [|reflexivity].
  now destruct (comp k (key_of x)).
Qed.

Lemma tree_mem_bound (t : list Value) (k : Key) :
  tree_mem key_of comp t k = true ->
  (first_index (stop k) t < length t)%nat.
Proof.
  rewrite tree_mem_nth.
  destruct (nth_error t (first_index (stop k) t)) as [x|] eqn:Hnth;
    [|discriminate].
  intros _. apply nth_error_Some. now rewrite Hnth.
Qed.

Lemma tree_count_mem (t : list Value) (k : Key) :
  (0 <? tree_count key_of comp t k) = tree_mem key_of comp t k.
Proof.
  unfold tree_count. rewrite tree_find_mem.
  destruct (tree_mem key_of comp t k) eqn:Hm.
  - apply tree_mem_bound in Hm.
    destruct (Z.eqb_spec (Z.of_nat (first_index (stop k) t)) (end_ t)) as [Heq|_];
      [unfold end_ in Heq; lia | reflexivity].
  - now rewrite Z.eqb_refl.
Qed.
End TreeFacts.

Section InsertFacts.
Context {Key Value : Type}.
Variable key_of : Value -> Key.
Variable comp : Key -> Key -> bool.

Lemma tree_insert_present (t : list Value) (v : Value) :
  tree_mem key_of comp t (key_of v) = true -> tree_insert key_of comp t v = t.
Proof.
  induction t as [|x rest IH]; simpl; [discriminate|].
  destruct (comp (key_of x) (key_of v)).
  - intros Hm. now rewrite IH.
  - now destruct (comp (key_of v) (key_of x)).
Qed.

Lemma tree_insert_fresh_length (t : list Value) (v : Value) :
  tree_mem key_of comp t (key_of v) = false ->
  length (tree_insert key_of comp t v) = S (length t).
Proof.
  induction t as [|x rest IH]; simpl; [reflexivity|].
  destruct (comp (key_of x) (key_of v)).
  - intros Hm. simpl. now rewrite IH.
  - destruct (comp (key_of v) (key_of x)); [reflexivity|discriminate].
Qed.

Lemma tree_insert_fresh_In (t : list Value) (v y : Value) :
  tree_mem key_of comp t (key_of v) = false ->
  In y (tree_insert key_of comp t v) <-> y = v \/ In y t.
Proof.
  induction t as [|x rest IH]; simpl.
  - intros _. split; [intros [<-|[]]; now left | intros [->|[]]; now left].
  - destruct (comp (key_of x) (key_of v)).
    + intros Hm. simpl. rewrite (IH Hm). tauto.
    + destruct (comp (key_of v) (key_of x)); [|discriminate].
      intros _. simpl. split; [intros [<-|H]|intros [->|H]]; tauto.
Qed.

Lemma tree_insert_mem (t : list Value) (v : Value) :
  comp (key_of v) (key_of v) = false ->
  tree_mem key_of comp (tree_insert key_of comp t v) (key_of v) = true.
Proof.
  intros Hirr. induction t as [|x rest IH]; simpl.
  - now rewrite Hirr.
  - destruct (comp (key_of x) (key_of v)) eqn:Hxv; simpl.
    + now rewrite Hxv.
    + destruct (comp (key_of v) (key_of x)) eqn:Hvx; simpl.
      * now rewrite Hirr.
      * now rewrite Hxv, Hvx.
Qed.

Lemma ordered_cons (x : Value) (rest : list Value) :
  ordered key_of comp (x :: rest)
  = match hd_error rest with
    | Some y => comp (key_of x) (key_of y)
    | None => true
    end && ordered key_of comp rest.
Proof.
  destruct rest as [|y rest']; reflexivity.
Qed.

Lemma tree_insert_head (t : list Value) (v : Value) :
  hd_error (tree_insert key_of comp t v) = Some v
  \/ (hd_error t <> None /\ hd_error (tree_insert key_of comp t v) = hd_error t).
Proof.
  destruct t as [|x rest]; simpl; [now left|].
  destruct (comp (key_of x) (key_of v)); [right; split; [discriminate|reflexivity]|].
  destruct (comp (key_of v) (key_of x)); [now left|].
  right. split; [discriminate|reflexivity].
Qed.

Lemma tree_insert_ordered (t : list Value) (v : Value) :
  ordered key_of comp t = true ->
  ordered key_of comp (tree_insert key_of comp t v) = true.
Proof.
  induction t as [|x rest IH]; [reflexivity|].
  rewrite ordered_cons. intros Hord.
  apply andb_true_iff in Hord as [Hhead Hrest].
  simpl tree_insert.
  destruct (comp (key_of x) (key_of v)) eqn:Hxv.
  - rewrite ordered_cons, (IH Hrest), andb_true_r.
    destruct (tree_insert_head rest v) as [Hv|[Hsome Hsame]].
    + now rewrite Hv.
    + now rewrite Hsame.
  - destruct (comp (key_of v) (key_of x)) eqn:Hvx.
    + rewrite ordered_cons. cbn [hd_error]. rewrite Hvx. cbn [andb].
      rewrite ordered_cons, Hhead, Hrest. reflexivity.
    + rewrite ordered_cons, Hhead, Hrest. reflexivity.
Qed.

Hypothesis comp_trans :
  forall a b c, comp a b = true -> comp b c = true -> comp a c = true.

Lemma ordered_head_before (x : Value) (rest : list Value) (y : Value) :
  ordered key_of comp (x :: rest) = true -> In y rest ->
  comp (key_of x) (key_of y) = true.
Proof.
  revert x. induction rest as [|z rest' IH]; intros x Hord Hin; [destruct Hin|].
  rewrite ordered_cons in Hord. simpl hd_error in Hord.
  apply andb_true_iff in Hord as [Hxz Hrest].
  destruct Hin as [<-|Hin]; [exact Hxz|].
  apply (comp_trans _ (key_of z)); [exact Hxz|].
  now apply IH.
Qed.

Lemma ordered_tail (x : Value) (rest : list Value) :
  ordered key_of comp (x :: rest) = true -> ordered key_of comp rest = true.
Proof.
  rewrite ordered_cons. intros Hord. now apply andb_true_iff in Hord.
Qed.

Lemma tree_mem_In (t : list Value) (v : Value) :
  (forall a, comp a a = false) ->
  ordered key_of comp t = true -> In v t ->
  tree_mem key_of comp t (key_of v) = true.
Proof.
  intros Hirr. induction t as [|x rest IH]; intros Hord Hin; [destruct Hin|].
  simpl. destruct Hin as [->|Hin].
  - now rewrite Hirr.
  - rewrite (ordered_head_before x rest v Hord Hin).
    apply IH; [exact (ordered_tail x rest Hord)|exact Hin].
Qed.
End InsertFacts.

Section AgreementFacts.
Context {Key Value : Type}.
Variable key_of : Value -> Key.
Variable comp : Key -> Key -> bool.
Variable eqb : Key -> Key -> bool.

Hypothesis comp_trans :
  forall a b c, comp a b = true -> comp b c = true -> comp a c = true.
Hypothesis agree : agrees_with comp eqb.

Local Abbreviation stop k := (fun x : Value => negb (comp (key_of x) k)).
Local Abbreviation hit k := (fun x : Value => eqb (key_of x) k).

Lemma scan_misses_after (x : Value) (rest : list Value) (k : Key) :
  ordered key_of comp (x :: rest) = true ->
  comp k (key_of x) = true ->
  forall y, In y (x :: rest) -> hit k y = false.
Proof.
  intros Hord Hkx y Hin.
  assert (Hky : comp k (key_of y) = true).
  { destruct Hin as [<-|Hin]; [exact Hkx|].
    apply (comp_trans _ (key_of x)); [exact Hkx|].
    exact (ordered_head_before key_of comp comp_trans x rest y Hord Hin). }
  cbv beta. rewrite agree. unfold equiv. rewrite Hky. apply andb_false_r.
Qed.

Lemma scan_absent (t : list Value) (k : Key) :
  ordered key_of comp t = true ->
  tree_mem key_of comp t k = false ->
  first_index (hit k) t = length t.
Proof.
  induction t as [|x rest IH]; intros Hord Hm; [reflexivity|].
  simpl in Hm. destruct (comp (key_of x) k) eqn:Hxk.
  - simpl. rewrite agree. unfold equiv. rewrite Hxk. simpl.
    f_equal. apply IH; [exact (ordered_tail key_of comp x rest Hord)|exact Hm].
  - apply negb_false_iff in Hm.
    apply first_index_all. exact (scan_misses_after x rest k Hord Hm).
Qed.

Lemma scan_present (t : list Value) (k : Key) :
  tree_mem key_of comp t k = true ->
  first_index (hit k) t = first_index (stop k) t.
Proof.
  induction t as [|x rest IH]; intros Hm; [reflexivity|].
  simpl in Hm. simpl. rewrite agree. unfold equiv.
  destruct (comp (key_of x) k) eqn:Hxk; simpl.
  - f_equal. exact (IH Hm).
  - apply negb_true_iff in Hm. now rewrite Hm.
Qed.

Lemma std_find_tree_find (t : list Value) (k : Key) :
  ordered key_of comp t = true ->
  std_find (fun x key => eqb (key_of x) key) t (begin t) k
  = tree_find key_of comp t k.
Proof.
  intros Hord. rewrite std_find_position, tree_find_mem.
  unfold begin. rewrite Z.add_0_l.
  destruct (tree_mem key_of comp t k) eqn:Hm.
  - now rewrite (scan_present t k Hm).
  - now rewrite (scan_absent t k Hord Hm).
Qed.
End AgreementFacts.

Section LookupFacts.
Context {Key T : Type}.
Variable comp : Key -> Key -> bool.

Lemma set_contains_mem (s : list Key) (key : Key) :
  Set_.contains comp s key = tree_mem (fun x => x) comp s key.
Proof. apply tree_count_mem. Qed.

Lemma map_contains_mem (m : list (Key * T)) (key : Key) :
  Map.contains comp m key = tree_mem fst comp m key.
Proof. apply tree_count_mem. Qed.

Lemma map_find_mem (m : list (Key * T)) (key : Key) :
  Map.find comp m key
  = if tree_mem fst comp m key
    then Returned (Z.of_nat (first_index (fun x => negb (comp (fst x) key)) m))
    else Thrown ElementNotFound.
Proof.
  unfold Map.find, Map.find_, Map.second, deref. same_key.
  cbn [star position_iterator]. cbv zeta. rewrite tree_find_mem.
  destruct (tree_mem fst comp m key) eqn:Hm.
  - apply tree_mem_bound in Hm.
    destruct (Z.eqb_spec
                (Z.of_nat (first_index (fun x => negb (comp (fst x) key)) m))
                (end_ m)) as [Heq|_]; [unfold end_ in Heq; lia | reflexivity].
  - now rewrite Z.eqb_refl.
Qed.
End LookupFacts.

Lemma abs_less_strict_weak_ordering : strict_weak_ordering abs_less.
Proof.
  unfold abs_less. split.
  - intros a. apply Z.ltb_irrefl.
  - intros a b c Hab Hbc. apply Z.ltb_lt in Hab, Hbc. apply Z.ltb_lt. lia.
  - intros a b c. unfold equiv.
    rewrite !andb_true_iff, !negb_true_iff, !Z.ltb_ge. lia.
Qed.

Lemma ltb_strict_weak_ordering : strict_weak_ordering Z.ltb.
Proof.
  split.
  - intros a. apply Z.ltb_irrefl.
  - intros a b c Hab Hbc. apply Z.ltb_lt in Hab, Hbc. apply Z.ltb_lt. lia.
  - intros a b c. unfold equiv.
    rewrite !andb_true_iff, !negb_true_iff, !Z.ltb_ge. lia.
Qed.

Lemma ltb_agrees_with_eqb : agrees_with Z.ltb Z.eqb.
Proof.
  intros a b. unfold equiv.
  destruct (Z.eqb_spec a b) as [->|Hne].
  - now rewrite Z.ltb_irrefl.
  - destruct (Z.ltb_spec a b); [reflexivity|].
    destruct (Z.ltb_spec b a); [reflexivity|lia].
Qed.

Section MapLookupFacts.
Context {Key T : Type}.
Variable comp : Key -> Key -> bool.

Lemma map_contains_of_find (m : list (Key * T)) (key : Key) :
  Map.contains comp m key
  = match Map.find comp m key with
    | Returned _ => true
    | Thrown _ => false
    end.
Proof.
  rewrite map_contains_mem, map_find_mem.
  now destruct (tree_mem fst comp m key).
Qed.
End MapLookupFacts.

Section Specializations.
Context {Key Key2 T : Type} `{ImplicitConversion Key2 Key}.
Variable comp : Key -> Key -> bool.
Variable eqb : Key -> Key2 -> bool.

(** A lookup with an argument of type [Key2] is the lookup with the
    converted argument. *)
Lemma map_contains_of_find_converted (m : list (Key * T)) (key : Key2) :
  Map.contains comp m key
  = match Map.find comp m key with
    | Returned _ => true
    | Thrown _ => false
    end.
Proof. exact (map_contains_of_find comp m (convert key)). Qed.

Hypothesis comp_swo : strict_weak_ordering comp.
Hypothesis agree : agrees_through_conversion comp eqb.

Lemma scan_is_lookup {Value : Type} (key_of : Value -> Key)
    (t : list Value) (key : Key2) :
  ordered key_of comp t = true ->
  std_find (fun x k => eqb (key_of x) k) t (begin t) key
  = tree_find key_of comp t (convert key).
Proof.
  intros Hord.
  rewrite (std_find_ext (fun x k => eqb (key_of x) k)
             (fun x k => equiv comp (key_of x) k) t (begin t) key (convert key))
    by (intros x; apply agree).
  exact (std_find_tree_find key_of comp (equiv comp)
           (comp_transitive comp comp_swo) (fun a b => eq_refl)
           t (convert key) Hord).
Qed.

Lemma generic_find_on_set (s : list Key) (element : Key2) :
  Set_.well_formed comp s = true ->
  Generic.find eqb s element
  = if Set_.contains comp s element
    then Returned (tree_find (fun x => x) comp s (convert element))
    else Thrown ElementNotFound.
Proof.
  intros Hwf. unfold Generic.find, Set_.contains, Set_.count, tree_count.
  assert (Hscan : std_find eqb s (begin s) element
                  = tree_find (fun x => x) comp s (convert element)).
  { exact (scan_is_lookup (fun x => x) s element Hwf). }
  rewrite Hscan. cbv zeta.
  now destruct (tree_find (fun x => x) comp s (convert element) =? end_ s).
Qed.

Lemma linear_scan_find_on_map (m : list (Key * T)) (key : Key2) :
  Map.well_formed comp m = true ->
  LinearScan.find eqb m key = Map.find comp m key.
Proof.
  intros Hwf. unfold LinearScan.find, Map.find, Map.find_.
  assert (Hscan : std_find (LinearScan.key_eqb eqb) m (begin m) key
                  = tree_find fst comp m (convert key)).
  { exact (scan_is_lookup fst m key Hwf). }
  now rewrite Hscan.
Qed.
End Specializations.

Lemma ltb_agrees_with_unsigned :
  agrees_through_conversion Z.ltb int_eq_unsigned.
Proof. intros a n. exact (ltb_agrees_with_eqb a (Z.of_nat n)). Qed.

Section ContainsFind.
Context {Element Key Key2 T : Type} `{ImplicitConversion Key2 Key}.
Variable eq_element : Element -> Element -> bool.
Variable comp : Key -> Key -> bool.
Variable eqb : Key -> Key2 -> bool.

(** C1, as amended.  [contains(C, e)] never throws and returns a boolean.
    It is true exactly when the signaling [find(C, e)] returns instead of
    throwing [ElementNotFound]: for every container and argument the
    generic overload serves, for every vector and list, for every map and
    lookup argument, and for every set and lookup argument such that the
    comparison object of the set is a strict weak ordering and [==] holds
    of an element and the argument exactly when the element is equivalent
    to the argument converted to the key type. *)
Theorem contains_iff_find_succeeds :
  (forall (c : list Key) (e : Key2),
      exists b, Generic.contains eqb c e = Returned b
                /\ (b = true <-> exists r, Generic.find eqb c e = Returned r))
  /\ (forall (v : list Element) (e : Element),
         Vector.contains eq_element v e = true
         <-> exists r, Generic.find eq_element v e = Returned r)
  /\ (forall (l : list Element) (e : Element),
         List_.contains eq_element l e = true
         <-> exists r, Generic.find eq_element l e = Returned r)
  /\ (forall (m : list (Key * T)) (k : Key2),
         Map.contains comp m k = true
         <-> exists r, Map.find comp m k = Returned r)
  /\ (strict_weak_ordering comp -> agrees_through_conversion comp eqb ->
      forall (s : list Key) (e : Key2),
        Set_.well_formed comp s = true ->
        (Set_.contains comp s e = true
         <-> exists r, Generic.find eqb s e = Returned r)).
Proof.
  split; [|split; [|split; [|split]]].
  - intros c e. rewrite contains_of_find.
    destruct (Generic.find eqb c e) as [r|ex].
    + exists true. split; [reflexivity|].
      split; [intros _; now exists r|reflexivity].
    + exists false. split; [reflexivity|].
      split; [discriminate|intros [r Hr]; discriminate].
  - intros v e. rewrite vector_contains_of_find.
    destruct (Generic.find eq_element v e) as [r|ex].
    + split; [intros _; now exists r|reflexivity].
    + split; [discriminate|intros [r Hr]; discriminate].
  - intros l e. rewrite list_contains_of_find.
    destruct (Generic.find eq_element l e) as [r|ex].
    + split; [intros _; now exists r|reflexivity].
    + split; [discriminate|intros [r Hr]; discriminate].
  - intros m k. rewrite map_contains_of_find_converted.
    destruct (Map.find comp m k) as [r|ex].
    + split; [intros _; now exists r|reflexivity].
    + split; [discriminate|intros [r Hr]; discriminate].
  - intros comp_swo agree s e Hwf.
    rewrite (generic_find_on_set comp eqb comp_swo agree s e Hwf).
    destruct (Set_.contains comp s e).
    + split; [intros _; now eexists|reflexivity].
    + split; [discriminate|intros [r Hr]; discriminate].
Qed.

(** C2, as amended.  On a set and on a map whose comparison object is a
    strict weak ordering, and for a lookup argument such that [==] holds
    of a key and the argument exactly when the key is equivalent to the
    argument converted to the key type, the specialized [contains] and
    [find] return what the generic linear scan returns: the same boolean,
    the same reference, or [ElementNotFound] in both. *)
Theorem specializations_agree_with_linear_scan
    (comp_swo : strict_weak_ordering comp)
    (agree : agrees_through_conversion comp eqb) :
  (forall (s : list Key) (key : Key2),
      Set_.well_formed comp s = true ->
      Generic.contains eqb s key = Returned (Set_.contains comp s key))
  /\ (forall (m : list (Key * T)) (key : Key2),
         Map.well_formed comp m = true ->
         LinearScan.contains eqb m key = Returned (Map.contains comp m key)
         /\ LinearScan.find eqb m key = Map.find comp m key).
Proof.
  split.
  - intros s key Hwf.
    rewrite contains_of_find, (generic_find_on_set comp eqb comp_swo agree s key Hwf).
    now destruct (Set_.contains comp s key).
  - intros m key Hwf.
    pose proof (linear_scan_find_on_map (T := T) comp eqb comp_swo agree m key Hwf)
      as Hfind.
    split; [|exact Hfind].
    unfold LinearScan.contains. rewrite Hfind, map_contains_of_find_converted.
    now destruct (Map.find comp m key).
Qed.
End ContainsFind.

Lemma contains_iff_find_succeeds_witness :
  strict_weak_ordering Z.ltb
  /\ agrees_through_conversion Z.ltb int_eq_unsigned
  /\ Set_.well_formed Z.ltb [1; 2; 3] = true
  /\ (Set_.contains Z.ltb [1; 2; 3] 2%nat = true
      <-> exists r, Generic.find int_eq_unsigned [1; 2; 3] 2%nat = Returned r).
Proof.
  split; [exact ltb_strict_weak_ordering|].
  split; [exact ltb_agrees_with_unsigned|].
  split; [reflexivity|].
  exact (proj2 (proj2 (proj2 (proj2
           (contains_iff_find_succeeds (T := Z) Z.eqb Z.ltb int_eq_unsigned))))
           ltb_strict_weak_ordering ltb_agrees_with_unsigned [1; 2; 3] 2%nat eq_refl).
Defined.

(** C1 as stated fails on a set ordered by absolute value: the set {-3}
    contains 3 according to [contains], while the signaling [find] of 3
    throws.  It fails under the default order too when the lookup argument
    is converted: the set {3} of integers contains 3.5 according to
    [contains], which looks for the integer 3, while the signaling [find]
    of 3.5 throws, no element being equal to 3.5. *)
Lemma contains_without_find_on_set :
  strict_weak_ordering abs_less
  /\ Set_.well_formed abs_less [-3] = true
  /\ ~ (Set_.contains abs_less [-3] 3 = true
        <-> exists r, Generic.find Z.eqb [-3] 3 = Returned r)
  /\ Set_.well_formed Z.ltb [3] = true
  /\ ~ (Set_.contains Z.ltb [3] (7 # 2)%Q = true
        <-> exists r, Generic.find int_eq_floating [3] (7 # 2)%Q = Returned r).
Proof.
  split; [exact abs_less_strict_weak_ordering|].
  split; [reflexivity|]. split; [|split; [reflexivity|]].
  - intros [Hfind _]. destruct (Hfind eq_refl) as [r Hr]. discriminate Hr.
  - intros [Hfind _]. destruct (Hfind eq_refl) as [r Hr]. discriminate Hr.
Qed.

Lemma specializations_agree_with_linear_scan_witness :
  strict_weak_ordering Z.ltb
  /\ agrees_through_conversion Z.ltb int_eq_unsigned
  /\ Set_.well_formed Z.ltb [1; 2; 3] = true
  /\ Map.well_formed Z.ltb [(1, 10); (4, 40)] = true
  /\ Generic.contains int_eq_unsigned [1; 2; 3] 2%nat
     = Returned (Set_.contains Z.ltb [1; 2; 3] 2%nat)
  /\ LinearScan.contains int_eq_unsigned [(1, 10); (4, 40)] 4%nat
     = Returned (Map.contains Z.ltb [(1, 10); (4, 40)] 4%nat)
  /\ LinearScan.find int_eq_unsigned [(1, 10); (4, 40)] 4%nat
     = Map.find Z.ltb [(1, 10); (4, 40)] 4%nat.
Proof.
  split; [exact ltb_strict_weak_ordering|].
  split; [exact ltb_agrees_with_unsigned|].
  split; [reflexivity|].
  split; [reflexivity|].
  split.
  - exact (proj1 (specializations_agree_with_linear_scan (T := Z) Z.ltb
                    int_eq_unsigned ltb_strict_weak_ordering
                    ltb_agrees_with_unsigned)
             [1; 2; 3] 2%nat eq_refl).
  - exact (proj2 (specializations_agree_with_linear_scan Z.ltb
                    int_eq_unsigned ltb_strict_weak_ordering
                    ltb_agrees_with_unsigned)
             [(1, 10); (4, 40)] 4%nat eq_refl).
Defined.

(** C2 as stated fails on a set and on a map ordered by absolute value: on
    the set {-3} and the key 3 the specialized [contains] returns true and
    the generic linear scan returns false; on the map {-3: 7} and the key 3
    the specialized [find] returns a reference to the mapped value and the
    linear scan throws.  It fails under the default order too when the
    lookup argument is converted: on the map {3: 30} of integers and the
    argument 3.5 the specialized [find] looks for the key 3 and returns a
    reference to its mapped value, and the linear scan throws. *)
Lemma set_contains_differs_from_linear_scan :
  strict_weak_ordering abs_less
  /\ Set_.well_formed abs_less [-3] = true
  /\ Set_.contains abs_less [-3] 3 = true
  /\ Generic.contains Z.eqb [-3] 3 = Returned false
  /\ Generic.contains Z.eqb [-3] 3 <> Returned (Set_.contains abs_less [-3] 3)
  /\ Map.well_formed abs_less [(-3, 7)] = true
  /\ Map.find abs_less [(-3, 7)] 3 = Returned 0
  /\ LinearScan.find Z.eqb [(-3, 7)] 3 = Thrown ElementNotFound
  /\ Map.well_formed Z.ltb [(3, 30)] = true
  /\ Map.find Z.ltb [(3, 30)] (7 # 2)%Q = Returned 0
  /\ LinearScan.find int_eq_floating [(3, 30)] (7 # 2)%Q = Thrown ElementNotFound
  /\ Set_.contains Z.ltb [3] (7 # 2)%Q = true
  /\ Generic.contains int_eq_floating [3] (7 # 2)%Q = Returned false.
Proof.
  split; [exact abs_less_strict_weak_ordering|].
  split; [reflexivity|].
  split; [reflexivity|].
  split; [reflexivity|].
  split; [discriminate|].
  repeat split.
Qed.

Section SetInsert.
Context {Key : Type}.
Variable comp : Key -> Key -> bool.

(** C6. Inserting into a set an element the set already contains returns
    the set as it was, so its size does not grow; inserting an element it
    does not contain makes the set one larger, the element is contained
    afterwards and the other elements are those of before.  The insertion
    returns a set in both cases, it has no failing outcome, and it keeps
    the set ordered. *)
Theorem insert_into_set (comp_swo : strict_weak_ordering comp)
    (s : list Key) (e : Key) :
  (Set_.contains comp s e = true -> Set_.insert_into comp s e = s)
  /\ (Set_.well_formed comp s = true -> In e s -> Set_.insert_into comp s e = s)
  /\ (Set_.contains comp s e = false ->
      size (Set_.insert_into comp s e) = size s + 1
      /\ Set_.contains comp (Set_.insert_into comp s e) e = true
      /\ forall x, In x (Set_.insert_into comp s e) <-> x = e \/ In x s)
  /\ (Set_.well_formed comp s = true ->
      Set_.well_formed comp (Set_.insert_into comp s e) = true).
Proof.
  pose proof (comp_irreflexive comp comp_swo) as Hirr.
  pose proof (comp_transitive comp comp_swo) as Htrans.
  unfold Set_.insert_into, Set_.insert, Set_.well_formed, size.
  rewrite !set_contains_mem.
  split; [|split; [|split]].
  - exact (tree_insert_present (fun x => x) comp s e).
  - intros Hwf Hin.
    apply (tree_insert_present (fun x => x) comp s e).
    exact (tree_mem_In (fun x => x) comp Htrans s e Hirr Hwf Hin).
  - intros Hfresh. split; [|split].
    + rewrite (tree_insert_fresh_length (fun x => x) comp s e Hfresh). lia.
    + exact (tree_insert_mem (fun x => x) comp s e (Hirr e)).
    + intros x. exact (tree_insert_fresh_In (fun x => x) comp s e x Hfresh).
  - exact (tree_insert_ordered (fun x => x) comp s e).
Qed.
End SetInsert.

Lemma insert_into_set_witness :
  strict_weak_ordering Z.ltb
  /\ (Set_.contains Z.ltb [1; 2] 2 = true /\ Set_.insert_into Z.ltb [1; 2] 2 = [1; 2])
  /\ (Set_.contains Z.ltb [1; 2] 3 = false
      /\ size (Set_.insert_into Z.ltb [1; 2] 3) = size [1; 2] + 1
      /\ Set_.contains Z.ltb (Set_.insert_into Z.ltb [1; 2] 3) 3 = true).
Proof.
  split; [exact ltb_strict_weak_ordering|]. split.
  - split; [reflexivity|].
    exact (proj1 (insert_into_set Z.ltb ltb_strict_weak_ordering [1; 2] 2) eq_refl).
  - split; [reflexivity|].
    destruct (proj1 (proj2 (proj2
                (insert_into_set Z.ltb ltb_strict_weak_ordering [1; 2] 3))) eq_refl)
      as (Hsize & Hin & _).
    exact (conj Hsize Hin).
Defined.

(** The example of the specification: inserting 2 into the set {1, 2}
    leaves {1, 2}, inserting 3 gives {1, 2, 3}. *)
Example set_insert_example :
  Set_.insert_into Z.ltb [1; 2] 2 = [1; 2]
  /\ Set_.insert_into Z.ltb [1; 2] 3 = [1; 2; 3].
Proof. split; reflexivity. Qed.

Section TraversalFacts.
Context {Value : Type}.

Lemma traverse_from_suffix (pre suf : list Value) :
  traverse_from (length suf) (pre ++ suf) (Z.of_nat (length pre)) = suf.
Proof.
  revert pre. induction suf as [|x suf' IH]; intros pre; [reflexivity|].
  cbn [traverse_from length]. positions.
  rewrite length_app. cbn [length].
  destruct (Z.eqb_spec (Z.of_nat (length pre))
                       (Z.of_nat (length pre + S (length suf')))) as [Heq|_];
    [lia|].
  rewrite read_of_nat, nth_error_app2, Nat.sub_diag by lia. cbn [nth_error].
  f_equal.
  replace (Z.of_nat (length pre) + 1) with (Z.of_nat (length (pre ++ [x])))
    by (rewrite length_app; cbn [length]; lia).
  replace (pre ++ x :: suf') with ((pre ++ [x]) ++ suf')
    by (now rewrite <- app_assoc).
  apply IH.
Qed.

Lemma traversal_all (c : list Value) : traversal c = c.
Proof. exact (traverse_from_suffix [] c). Qed.

Lemma std_copy_back_insert_app (range c2 : list Value) :
  std_copy_back_insert range c2 = c2 ++ range.
Proof.
  revert c2. induction range as [|x rest IH]; intros c2; simpl.
  - now rewrite app_nil_r.
  - rewrite IH. unfold push_back. now rewrite <- app_assoc.
Qed.

Lemma std_copy_back_insert_fold (range c2 : list Value) :
  std_copy_back_insert range c2 = fold_left Generic.insert_into range c2.
Proof.
  revert c2. induction range as [|x rest IH]; intros c2; simpl;
    [reflexivity|apply IH].
Qed.

Lemma back_push_back (c : list Value) (x : Value) :
  back (push_back c x) = end_ (push_back c x) - 1
  /\ read (push_back c x) (back (push_back c x)) = Some x.
Proof.
  unfold push_back. positions.
  split; [reflexivity|].
  rewrite length_app. cbn [length].
  replace (Z.of_nat (length c + 1) - 1) with (Z.of_nat (length c)) by lia.
  rewrite read_of_nat, nth_error_app2, Nat.sub_diag by lia. reflexivity.
Qed.

(** C5. [insert_into] on a vector or a list appends: a full traversal
    after the call gives the traversal of before followed by the new
    element, whether or not the element was there already, so the size
    always grows by one. *)
Theorem insert_into_appends (cont : list Value) (element : Value) :
  traversal (Generic.insert_into cont element) = traversal cont ++ [element]
  /\ size (Generic.insert_into cont element) = size cont + 1.
Proof.
  rewrite !traversal_all. unfold Generic.insert_into, push_back, size.
  split; [reflexivity|]. rewrite length_app. cbn [length]. lia.
Qed.

(** C8. [copy_container(c1, c2)] goes through [c1] from its first to its
    last element and appends each one to [c2] the way [insert_into]
    appends to a vector or a list; [c2] keeps what it held.  A traversal
    of [c2] afterwards gives its elements of before followed by those of
    [c1], which is the traversal of [c1] when [c2] was empty. *)
Theorem copy_container_appends (c1 c2 : list Value) :
  copy_container c1 c2 = fold_left Generic.insert_into (traversal c1) c2
  /\ traversal (copy_container c1 c2) = traversal c2 ++ traversal c1
  /\ traversal (copy_container c1 []) = traversal c1.
Proof.
  unfold copy_container. rewrite !traversal_all.
  split; [apply std_copy_back_insert_fold|].
  split; apply std_copy_back_insert_app.
Qed.
End TraversalFacts.

(** Duplicates are kept: the vector [1, 2] holds 2 twice after
    [insert_into] of 2. *)
Example insert_into_duplicate : Generic.insert_into [1; 2] 2 = [1; 2; 2].
Proof. reflexivity. Qed.

(** A set is a source like any other container: it is copied in the order
    of its traversal. *)
Example copy_container_example :
  copy_container (Set_.insert_into Z.ltb [1; 3] 2) [7; 8] = [7; 8; 1; 2; 3].
Proof. reflexivity. Qed.

Section AdapterFacts.
Context {T : Type}.

Lemma insert_into_items (cont : Impl T) (element : T) :
  items_of (insert_into cont element) = items_of cont ++ [element].
Proof. now destruct cont. Qed.

(** X14. Through a handle bound to a vector or to a list, [insert(e)]
    appends [e] to the bound container and returns a reference to the last
    element of the container, which is the element just appended. *)
Theorem adapter_insert_returns_back (this : ContainerAdapterImpl T) (element : T) :
  let (this', r) := insert this element in
  traversal (items_of (container this'))
  = traversal (items_of (container this)) ++ [element]
  /\ r = end_ (items_of (container this')) - 1
  /\ read (items_of (container this')) r = Some element.
Proof.
  cbn [insert ContainerAdapterImpl_insert container].
  unfold back_member. rewrite insert_into_items, !traversal_all.
  split; [reflexivity|].
  exact (back_push_back (items_of (container this)) element).
Qed.
End AdapterFacts.

(** Through a handle bound to the vector [1, 2], [insert(2)] leaves
    [1, 2, 2] and returns a reference to the third element. *)
Example adapter_insert_example :
  insert (ContainerAdapterImpl_ctor (std_vector [1; 2])) 2
  = (ContainerAdapterImpl_ctor (std_vector [1; 2; 2]), 2).
Proof. reflexivity. Qed.

Section CursorFacts.
Import AutonomousIterator.

Lemma advance_current (n : nat) (b e : iterator) :
  _current (advance n (ctor b e)) = b + Z.of_nat n
  /\ _end (advance n (ctor b e)) = e.
Proof.
  revert b. induction n as [|n IH]; intros b.
  - cbn. split; [lia|reflexivity].
  - cbn [advance]. unfold pre_incr, ctor. cbn [_current _end incr position_iterator].
    destruct (IH (b + 1)) as [Hcur Hend]. unfold ctor in Hcur, Hend.
    rewrite Hcur, Hend. split; [lia|reflexivity].
Qed.

Lemma end_advance (n : nat) (b e : iterator) :
  AutonomousIterator.end_ (advance n (ctor b e)) = (b + Z.of_nat n =? e).
Proof.
  unfold AutonomousIterator.end_.
  destruct (advance_current n b e) as [-> ->]. reflexivity.
Qed.

(** C9. A cursor built over an empty range is exhausted at once.  A cursor
    built over a range that is not empty starts active; moved forward as
    many times as the range is long it is exhausted, and after fewer moves
    it is still active: it is exhausted exactly when its current position
    is the end position it was built with. *)
Theorem cursor_exhaustion (b e : iterator) :
  AutonomousIterator.end_ (ctor b b) = true
  /\ (b <> e -> AutonomousIterator.end_ (ctor b e) = false)
  /\ (b <= e ->
      forall n : nat,
        (n <= Z.to_nat (e - b))%nat ->
        (AutonomousIterator.end_ (advance n (ctor b e)) = true
         <-> n = Z.to_nat (e - b)))
  /\ (forall n : nat,
        AutonomousIterator.end_ (advance n (ctor b e)) = true
        <-> _current (advance n (ctor b e)) = _end (advance n (ctor b e))).
Proof.
  split; [|split; [|split]].
  - apply Z.eqb_refl.
  - intros Hne. now apply Z.eqb_neq.
  - intros Hle n Hn. rewrite end_advance, Z.eqb_eq. lia.
  - intros n. unfold AutonomousIterator.end_. cbn [iter_eqb position_iterator].
    apply Z.eqb_eq.
Qed.
End CursorFacts.

Lemma cursor_exhaustion_witness :
  (2 <> 5 /\ AutonomousIterator.end_ (AutonomousIterator.ctor 2 5) = false)
  /\ (2 <= 5 /\ (3 <= Z.to_nat (5 - 2))%nat
      /\ (AutonomousIterator.end_
            (AutonomousIterator.advance 3 (AutonomousIterator.ctor 2 5)) = true
          <-> 3%nat = Z.to_nat (5 - 2))).
Proof.
  assert (Hne : 2 <> 5) by discriminate.
  assert (Hle : 2 <= 5) by discriminate.
  assert (Hn : (3 <= Z.to_nat (5 - 2))%nat) by (apply Nat.le_refl).
  split.
  - split; [exact Hne|].
    exact (proj1 (proj2 (cursor_exhaustion 2 5)) Hne).
  - split; [exact Hle|]. split; [exact Hn|].
    exact (proj1 (proj2 (proj2 (cursor_exhaustion 2 5))) Hle 3%nat Hn).
Defined.

(** A cursor over the whole of a container: exhausted at once when the
    container is empty, and otherwise after as many moves as the container
    has elements and not before. *)
Corollary cursor_over_container {Value : Type} (c : list Value) (n : nat) :
  (n <= length c)%nat ->
  (AutonomousIterator.end_
     (AutonomousIterator.advance n (AutonomousIterator.ctor (begin c) (end_ c)))
   = true
   <-> n = length c).
Proof.
  intros Hn. rewrite end_advance, Z.eqb_eq. unfold begin, end_. lia.
Qed.

Section NothrowFacts.
Context {Key : Type}.
Variable comp : Key -> Key -> bool.

Lemma map_find_nothrow_of_find (m : list (Key * pointer)) (key : Key) :
  Map.find_nothrow comp m key nothrow
  = match Map.find comp m key with
    | Returned r => match Map.mapped m r with
                    | Some p => p
                    | None => NULL
                    end
    | Thrown _ => NULL
    end.
Proof.
  unfold Map.find_nothrow, Map.find. same_key. cbv zeta.
  now destruct (Map.find_ comp m key =? end_ m).
Qed.

Lemma map_find_mapped (m : list (Key * pointer)) (key : Key) (r : reference) :
  Map.find comp m key = Returned r -> exists p, Map.mapped m r = Some p.
Proof.
  rewrite map_find_mem.
  destruct (tree_mem fst comp m key) eqn:Hm; [|discriminate].
  intros [= <-]. apply tree_mem_bound in Hm.
  unfold Map.mapped. rewrite read_of_nat.
  destruct (nth_error m (first_index (fun x => negb (comp (fst x) key)) m))
    as [[k p]|] eqn:Hnth.
  - now exists p.
  - apply nth_error_None in Hnth. lia.
Qed.

(** X15. On a map to pointers the non-signaling [find] returns the pointer
    stored under the key when the key is present, and [NULL] when it is
    absent.  So when the pointer stored under a present key is [NULL], the
    call returns [NULL], which is also what an absent key gives. *)
Theorem map_find_nothrow_returns_stored_pointer
    (m : list (Key * pointer)) (key : Key) :
  (forall r, Map.find comp m key = Returned r ->
             exists p, Map.mapped m r = Some p
                       /\ Map.find_nothrow comp m key nothrow = p)
  /\ (Map.contains comp m key = false ->
      Map.find_nothrow comp m key nothrow = NULL)
  /\ (forall r, Map.contains comp m key = true ->
                Map.find comp m key = Returned r ->
                Map.mapped m r = Some NULL ->
                Map.find_nothrow comp m key nothrow = NULL).
Proof.
  rewrite map_find_nothrow_of_find, map_contains_of_find.
  split; [|split].
  - intros r Hr. destruct (map_find_mapped m key r Hr) as [p Hp].
    exists p. now rewrite Hr, Hp.
  - now destruct (Map.find comp m key).
  - intros r _ Hr Hnull. now rewrite Hr, Hnull.
Qed.
End NothrowFacts.

Lemma map_find_nothrow_returns_stored_pointer_witness :
  (Map.find Z.ltb [(1, NULL); (4, 40)] 4 = Returned 1
   /\ exists p, Map.mapped [(1, NULL); (4, 40)] 1 = Some p
                /\ Map.find_nothrow Z.ltb [(1, NULL); (4, 40)] 4 nothrow = p)
  /\ (Map.contains Z.ltb [(1, NULL); (4, 40)] 3 = false
      /\ Map.find_nothrow Z.ltb [(1, NULL); (4, 40)] 3 nothrow = NULL)
  /\ (Map.contains Z.ltb [(1, NULL); (4, 40)] 1 = true
      /\ Map.find Z.ltb [(1, NULL); (4, 40)] 1 = Returned 0
      /\ Map.mapped [(1, NULL); (4, 40)] 0 = Some NULL
      /\ Map.find_nothrow Z.ltb [(1, NULL); (4, 40)] 1 nothrow = NULL).
Proof.
  split; [|split].
  - split; [reflexivity|].
    exact (proj1 (map_find_nothrow_returns_stored_pointer
                    Z.ltb [(1, NULL); (4, 40)] 4) 1 eq_refl).
  - split; [reflexivity|].
    exact (proj1 (proj2 (map_find_nothrow_returns_stored_pointer
                           Z.ltb [(1, NULL); (4, 40)] 3)) eq_refl).
  - split; [reflexivity|]. split; [reflexivity|]. split; [reflexivity|].
    exact (proj2 (proj2 (map_find_nothrow_returns_stored_pointer
                           Z.ltb [(1, NULL); (4, 40)] 1)) 0 eq_refl eq_refl eq_refl).
Defined.

(** A key stored with the null pointer and a key that is not stored give
    the same answer. *)
Example map_find_nothrow_null_is_ambiguous :
  Map.contains Z.ltb [(1, NULL)] 1 = true
  /\ Map.contains Z.ltb ([] : list (Z * pointer)) 1 = false
  /\ Map.find_nothrow Z.ltb [(1, NULL)] 1 nothrow = Map.find_nothrow Z.ltb [] 1 nothrow.
Proof. repeat split. Qed.

Section GenericNothrowFacts.
Context {Value Element : Type}.
Variable eqb : Value -> Element -> bool.
Variable to_pointer : Value -> pointer.

Lemma find_nothrow_position (c : list Value) (element : Element) :
  Generic.find_nothrow eqb to_pointer c element nothrow
  = match nth_error c (first_index (fun x => eqb x element) c) with
    | Some v => to_pointer v
    | None => NULL
    end.
Proof.
  unfold Generic.find_nothrow. rewrite std_find_position. positions.
  rewrite Z.add_0_l, read_of_nat.
  destruct (Z.eqb_spec (Z.of_nat (first_index (fun x => eqb x element) c))
                       (Z.of_nat (length c))) as [Heq|_]; [|reflexivity].
  apply Nat2Z.inj in Heq.
  assert (Hnone : nth_error c (first_index (fun x => eqb x element) c) = None).
  { apply nth_error_None. lia. }
  now rewrite Hnone.
Qed.

(** What the non-signaling generic [find] returns: [NULL] when no element
    matches, and otherwise the first matching element itself, converted to
    a pointer. *)
Lemma find_nothrow_value (c : list Value) (element : Element) :
  ((forall x, In x c -> eqb x element = false) ->
   Generic.find_nothrow eqb to_pointer c element nothrow = NULL)
  /\ ((exists x, In x c /\ eqb x element = true) ->
      exists v, nth_error c (first_index (fun x => eqb x element) c) = Some v
                /\ eqb v element = true
                /\ Generic.find_nothrow eqb to_pointer c element nothrow
                   = to_pointer v).
Proof.
  rewrite find_nothrow_position. split.
  - intros Hall. apply (first_index_all (fun x => eqb x element) c) in Hall.
    assert (Hnone : nth_error c (first_index (fun x => eqb x element) c) = None).
    { apply nth_error_None. lia. }
    now rewrite Hnone.
  - intros Hex.
    destruct (first_index_hit _ c (first_index_exists _ c Hex)) as (v & Hv & Hhit).
    exists v. now rewrite Hv.
Qed.
End GenericNothrowFacts.

(** C4, on the code.  In a vector of pointers that holds only the null
    pointer, the null pointer is found: the signaling [find] returns a
    reference to it.  The non-signaling [find] returns the element itself,
    that is [NULL], the marker of an absent element; and in the vector of
    the pointers 16 and 32 it returns 32 for the target 32, the value
    stored and not the place where it is stored. *)
Theorem find_nothrow_returns_element_not_reference :
  Generic.find Z.eqb [NULL] NULL = Returned 0
  /\ Generic.find_nothrow Z.eqb (fun p : pointer => p) [NULL] NULL nothrow = NULL
  /\ Generic.find Z.eqb [16; 32] 32 = Returned 1
  /\ Generic.find_nothrow Z.eqb (fun p : pointer => p) [16; 32] 32 nothrow = 32.
Proof. repeat split. Qed.

(** * Further properties of the lookups *)

Section ScanMore.
Context {Value : Type}.
Variable p : Value -> bool.

Lemma first_index_existsb (l : list Value) :
  (first_index p l <? length l)%nat = existsb p l.
Proof.
  induction l as [|x rest IH]; [reflexivity|].
  cbn [first_index existsb length]. destruct (p x); [reflexivity|exact IH].
Qed.

Lemma first_index_app (l1 l2 : list Value) :
  first_index p (l1 ++ l2)
  = if existsb p l1 then first_index p l1
    else (length l1 + first_index p l2)%nat.
Proof.
  induction l1 as [|x rest IH]; [reflexivity|].
  cbn [app first_index existsb length]. destruct (p x); [reflexivity|].
  rewrite IH. cbn [orb]. now destruct (existsb p rest).
Qed.
End ScanMore.

Section SequenceLookup.
Context {Element : Type}.
Variable eqb : Element -> Element -> bool.

Lemma find_existsb (c : list Element) (element : Element) :
  Generic.find eqb c element
  = if existsb (fun x => eqb x element) c
    then Returned (Z.of_nat (first_index (fun x => eqb x element) c))
    else Thrown ElementNotFound.
Proof.
  rewrite find_position. cbv zeta. now rewrite first_index_existsb.
Qed.

Lemma vector_contains_existsb (v : list Element) (element : Element) :
  Vector.contains eqb v element = existsb (fun x => eqb x element) v.
Proof.
  rewrite vector_contains_of_find, find_existsb.
  now destruct (existsb (fun x => eqb x element) v).
Qed.

(** X1. The generic, the vector and the list overload of [contains] give
    the same answer: true exactly when some element of the container
    compares equal to the target. *)
Theorem contains_some_element_equal (c : list Element) (element : Element) :
  Generic.contains eqb c element
  = Returned (existsb (fun x => eqb x element) c)
  /\ Vector.contains eqb c element = existsb (fun x => eqb x element) c
  /\ List_.contains eqb c element = existsb (fun x => eqb x element) c.
Proof.
  rewrite contains_of_find, vector_contains_of_find, list_contains_of_find,
    find_existsb.
  now destruct (existsb (fun x => eqb x element) c).
Qed.

Lemma find_app (c2 c1 : list Element) (x : Element) :
  Generic.find eqb (c2 ++ c1) x
  = match Generic.find eqb c2 x with
    | Returned r => Returned r
    | Thrown _ =>
        match Generic.find eqb c1 x with
        | Returned r => Returned (end_ c2 + r)
        | Thrown ex => Thrown ex
        end
    end.
Proof.
  rewrite !find_existsb, existsb_app, first_index_app.
  destruct (existsb (fun y => eqb y x) c2); [reflexivity|].
  destruct (existsb (fun y => eqb y x) c1); [|reflexivity].
  cbn [orb]. unfold end_. now rewrite Nat2Z.inj_add.
Qed.

(** X2. What the signaling [find] returns after [insert_into] on a vector
    or a list: the reference it returned before when the target was
    there; a reference to the appended element, at the old end position,
    when the target was not there and the appended element equals it; and
    [ElementNotFound] otherwise.  So [contains] afterwards is [contains]
    before or the appended element being equal to the target. *)
Theorem find_after_insert_into (cont : list Element) (element x : Element) :
  Generic.find eqb (Generic.insert_into cont element) x
  = match Generic.find eqb cont x with
    | Returned r => Returned r
    | Thrown ex => if eqb element x then Returned (end_ cont) else Thrown ex
    end
  /\ Vector.contains eqb (Generic.insert_into cont element) x
     = Vector.contains eqb cont x || eqb element x.
Proof.
  unfold Generic.insert_into, push_back. split.
  - rewrite find_app. destruct (Generic.find eqb cont x) as [r|ex] eqn:Hfind;
      [reflexivity|].
    rewrite find_existsb. cbn [existsb first_index].
    destruct (eqb element x); cbn [orb].
    + now rewrite Z.add_0_r.
    + rewrite find_existsb in Hfind.
      destruct (existsb (fun y => eqb y x) cont); [discriminate|exact Hfind].
  - rewrite !vector_contains_existsb, existsb_app. cbn [existsb].
    now rewrite orb_false_r.
Qed.

(** X3. What the signaling [find] returns on the destination after
    [copy_container]: the reference it returned on the destination before
    when the target was there; otherwise the reference it returns on the
    source, moved by the old size of the destination; [ElementNotFound]
    when the target is in neither.  The destination grows by the size of
    the source, and [contains] afterwards is [contains] on either
    container before. *)
Theorem find_after_copy_container (c1 c2 : list Element) (x : Element) :
  Generic.find eqb (copy_container c1 c2) x
  = match Generic.find eqb c2 x with
    | Returned r => Returned r
    | Thrown _ =>
        match Generic.find eqb c1 x with
        | Returned r => Returned (end_ c2 + r)
        | Thrown ex => Thrown ex
        end
    end
  /\ Vector.contains eqb (copy_container c1 c2) x
     = Vector.contains eqb c2 x || Vector.contains eqb c1 x
  /\ size (copy_container c1 c2) = size c2 + size c1.
Proof.
  unfold copy_container. rewrite std_copy_back_insert_app.
  split; [apply find_app|]. split.
  - rewrite !vector_contains_existsb. apply existsb_app.
  - unfold size. rewrite length_app. lia.
Qed.
End SequenceLookup.

(** * Further properties of the ordered containers *)

Section EquivFacts.
Context {Key : Type}.
Variable comp : Key -> Key -> bool.

Lemma equiv_sym (a b : Key) : equiv comp a b = equiv comp b a.
Proof. unfold equiv. apply andb_comm. Qed.

Lemma equiv_agrees : agrees_with comp (equiv comp).
Proof. intros a b. reflexivity. Qed.

Lemma comp_not_equiv (a b : Key) : comp a b = true -> equiv comp a b = false.
Proof. intros Hab. unfold equiv. now rewrite Hab. Qed.
End EquivFacts.

Section TreeMore.
Context {Key Value : Type}.
Variable key_of : Value -> Key.
Variable comp : Key -> Key -> bool.

Local Abbreviation same k := (fun x : Value => equiv comp (key_of x) k).

Lemma tree_mem_hit (t : list Value) (k : Key) :
  tree_mem key_of comp t k = true ->
  exists x,
    nth_error t (first_index (fun x => negb (comp (key_of x) k)) t) = Some x
    /\ equiv comp (key_of x) k = true.
Proof.
  intros Hm.
  destruct (first_index_hit _ t (tree_mem_bound key_of comp t k Hm))
    as (x & Hnth & Hstop).
  exists x. split; [exact Hnth|].
  rewrite tree_mem_nth, Hnth in Hm. unfold equiv.
  cbv beta in Hstop. now rewrite Hstop, Hm.
Qed.

Lemma tree_insert_existsb (p : Value -> bool) (t : list Value) (v : Value) :
  existsb p (tree_insert key_of comp t v)
  = if tree_mem key_of comp t (key_of v) then existsb p t
    else p v || existsb p t.
Proof.
  induction t as [|x rest IH]; [reflexivity|].
  cbn [tree_insert tree_mem].
  destruct (comp (key_of x) (key_of v)).
  - cbn [existsb]. rewrite IH.
    destruct (tree_mem key_of comp rest (key_of v)); [reflexivity|].
    now destruct (p x), (p v).
  - now destruct (comp (key_of v) (key_of x)).
Qed.

Lemma tree_insert_length_le (t : list Value) (v : Value) :
  (length (tree_insert key_of comp t v) <= S (length t))%nat.
Proof.
  destruct (tree_mem key_of comp t (key_of v)) eqn:Hm.
  - rewrite (tree_insert_present key_of comp t v Hm). lia.
  - rewrite (tree_insert_fresh_length key_of comp t v Hm). lia.
Qed.

Hypothesis comp_swo : strict_weak_ordering comp.

Lemma tree_mem_existsb (t : list Value) (k : Key) :
  ordered key_of comp t = true ->
  tree_mem key_of comp t k = existsb (same k) t.
Proof.
  intros Hord. rewrite <- first_index_existsb.
  destruct (tree_mem key_of comp t k) eqn:Hm.
  - rewrite (scan_present key_of comp (equiv comp) (equiv_agrees comp) t k Hm).
    symmetry. apply Nat.ltb_lt. exact (tree_mem_bound key_of comp t k Hm).
  - rewrite (scan_absent key_of comp (equiv comp)
               (comp_transitive comp comp_swo) (equiv_agrees comp) t k Hord Hm).
    symmetry. apply Nat.ltb_irrefl.
Qed.

Lemma tree_mem_insert (t : list Value) (v : Value) (k : Key) :
  ordered key_of comp t = true ->
  tree_mem key_of comp (tree_insert key_of comp t v) k
  = tree_mem key_of comp t k || equiv comp (key_of v) k.
Proof.
  intros Hord.
  rewrite (tree_mem_existsb _ k (tree_insert_ordered key_of comp t v Hord)).
  rewrite tree_insert_existsb, (tree_mem_existsb t k Hord).
  destruct (tree_mem key_of comp t (key_of v)) eqn:Hm; [|apply orb_comm].
  destruct (equiv comp (key_of v) k) eqn:Hvk; [|now rewrite orb_false_r].
  rewrite orb_true_r. apply existsb_exists.
  rewrite (tree_mem_existsb t (key_of v) Hord) in Hm.
  apply existsb_exists in Hm as (x & Hin & Hxv).
  exists x. split; [exact Hin|].
  exact (equiv_transitive comp comp_swo _ _ _ Hxv Hvk).
Qed.

Lemma ordered_nth (t : list Value) (i j : nat) (a b : Value) :
  ordered key_of comp t = true -> (i < j)%nat ->
  nth_error t i = Some a -> nth_error t j = Some b ->
  comp (key_of a) (key_of b) = true.
Proof.
  revert i j. induction t as [|x rest IH]; intros i j Hord Hij Ha Hb.
  - now destruct i.
  - destruct j as [|j]; [lia|]. cbn [nth_error] in Hb.
    destruct i as [|i]; cbn [nth_error] in Ha.
    + injection Ha as <-.
      exact (ordered_head_before key_of comp (comp_transitive comp comp_swo)
               x rest b Hord (nth_error_In rest j Hb)).
    + apply (IH i j); [exact (ordered_tail key_of comp x rest Hord)|lia| |];
        assumption.
Qed.

Lemma ordered_unique (t : list Value) (i j : nat) (a b : Value) :
  ordered key_of comp t = true ->
  nth_error t i = Some a -> nth_error t j = Some b ->
  equiv comp (key_of a) (key_of b) = true -> i = j.
Proof.
  intros Hord Ha Hb Hab.
  destruct (Nat.lt_trichotomy i j) as [Hlt|[Heq|Hgt]]; [|exact Heq|].
  - rewrite (comp_not_equiv comp _ _ (ordered_nth t i j a b Hord Hlt Ha Hb)) in Hab.
    discriminate.
  - rewrite equiv_sym in Hab.
    rewrite (comp_not_equiv comp _ _ (ordered_nth t j i b a Hord Hgt Hb Ha)) in Hab.
    discriminate.
Qed.
End TreeMore.

Section SetMore.
Context {Key : Type}.
Variable comp : Key -> Key -> bool.
Hypothesis comp_swo : strict_weak_ordering comp.

(** X4. On a set, [contains] is true exactly when the set holds an
    element equivalent to the key under the set's comparison object. *)
Theorem set_contains_equivalent_element (s : list Key) (key : Key) :
  Set_.well_formed comp s = true ->
  Set_.contains comp s key = existsb (fun x => equiv comp x key) s.
Proof.
  intros Hwf. rewrite set_contains_mem.
  exact (tree_mem_existsb (fun x => x) comp comp_swo s key Hwf).
Qed.

(** X5. After [insert_into] on a set, [contains] answers for every key
    what it answered before, except that the keys equivalent to the
    inserted element are now contained. *)
Theorem set_contains_after_insert_into (s : list Key) (element key : Key) :
  Set_.well_formed comp s = true ->
  Set_.contains comp (Set_.insert_into comp s element) key
  = Set_.contains comp s key || equiv comp element key.
Proof.
  intros Hwf. rewrite !set_contains_mem.
  exact (tree_mem_insert (fun x => x) comp comp_swo s element key Hwf).
Qed.

(** X6. [insert_into] on a set is idempotent: inserting an element a
    second time changes nothing. *)
Theorem set_insert_into_idempotent (s : list Key) (element : Key) :
  Set_.insert_into comp (Set_.insert_into comp s element) element
  = Set_.insert_into comp s element.
Proof.
  unfold Set_.insert_into, Set_.insert.
  apply (tree_insert_present (fun x => x) comp).
  exact (tree_insert_mem (fun x => x) comp s element
           (comp_irreflexive comp comp_swo element)).
Qed.

(** X7. Elements inserted one after another into a well-formed set leave
    a well-formed set that contains each of them and everything the set
    contained before, and that has grown by at most the number of
    insertions. *)
Theorem set_insert_into_sequence (l : list Key) (s : list Key) :
  Set_.well_formed comp s = true ->
  Set_.well_formed comp (fold_left (Set_.insert_into comp) l s) = true
  /\ (forall x, In x l ->
        Set_.contains comp (fold_left (Set_.insert_into comp) l s) x = true)
  /\ (forall k, Set_.contains comp s k = true ->
        Set_.contains comp (fold_left (Set_.insert_into comp) l s) k = true)
  /\ size (fold_left (Set_.insert_into comp) l s) <= size s + Z.of_nat (length l).
Proof.
  revert s. induction l as [|a rest IH]; intros s Hwf.
  - cbn. repeat split; [exact Hwf|intros x []|tauto|lia].
  - cbn [fold_left].
    assert (Hwf1 : Set_.well_formed comp (Set_.insert_into comp s a) = true)
      by exact (tree_insert_ordered (fun x => x) comp s a Hwf).
    assert (Hgrow : forall k, Set_.contains comp s k = true ->
                              Set_.contains comp (Set_.insert_into comp s a) k = true).
    { intros k Hk. rewrite !set_contains_mem in *.
      unfold Set_.insert_into, Set_.insert.
      rewrite (tree_mem_insert (fun x => x) comp comp_swo s a k Hwf), Hk.
      reflexivity. }
    assert (Ha : Set_.contains comp (Set_.insert_into comp s a) a = true).
    { rewrite set_contains_mem.
      exact (tree_insert_mem (fun x => x) comp s a
               (comp_irreflexive comp comp_swo a)). }
    destruct (IH (Set_.insert_into comp s a) Hwf1) as (Hwf' & Hin & Hkeep & Hsize).
    split; [exact Hwf'|]. split; [|split].
    + intros x [<-|Hx]; [exact (Hkeep _ Ha)|exact (Hin x Hx)].
    + intros k Hk. exact (Hkeep k (Hgrow k Hk)).
    + pose proof (tree_insert_length_le (fun x => x) comp s a) as Hle.
      unfold size, Set_.insert_into, Set_.insert in *. cbn [length]. lia.
Qed.
End SetMore.

Lemma set_contains_equivalent_element_witness :
  strict_weak_ordering abs_less
  /\ Set_.well_formed abs_less [1; -3; 5] = true
  /\ Set_.contains abs_less [1; -3; 5] 3
     = existsb (fun x => equiv abs_less x 3) [1; -3; 5].
Proof.
  split; [exact abs_less_strict_weak_ordering|]. split; [reflexivity|].
  exact (set_contains_equivalent_element abs_less abs_less_strict_weak_ordering
           [1; -3; 5] 3 eq_refl).
Defined.

Lemma set_contains_after_insert_into_witness :
  strict_weak_ordering abs_less
  /\ Set_.well_formed abs_less [1; 5] = true
  /\ Set_.contains abs_less (Set_.insert_into abs_less [1; 5] (-3)) 3
     = Set_.contains abs_less [1; 5] 3 || equiv abs_less (-3) 3.
Proof.
  split; [exact abs_less_strict_weak_ordering|]. split; [reflexivity|].
  exact (set_contains_after_insert_into abs_less abs_less_strict_weak_ordering
           [1; 5] (-3) 3 eq_refl).
Defined.

Lemma set_insert_into_idempotent_witness :
  strict_weak_ordering Z.ltb
  /\ Set_.insert_into Z.ltb (Set_.insert_into Z.ltb [1; 3] 2) 2
     = Set_.insert_into Z.ltb [1; 3] 2.
Proof.
  split; [exact ltb_strict_weak_ordering|].
  exact (set_insert_into_idempotent Z.ltb ltb_strict_weak_ordering [1; 3] 2).
Defined.

Lemma set_insert_into_sequence_witness :
  strict_weak_ordering Z.ltb
  /\ Set_.well_formed Z.ltb [2] = true
  /\ Set_.well_formed Z.ltb (fold_left (Set_.insert_into Z.ltb) [3; 1; 3] [2]) = true
  /\ size (fold_left (Set_.insert_into Z.ltb) [3; 1; 3] [2])
     <= size [2] + Z.of_nat (length [3; 1; 3]).
Proof.
  split; [exact ltb_strict_weak_ordering|]. split; [reflexivity|].
  destruct (set_insert_into_sequence Z.ltb ltb_strict_weak_ordering
              [3; 1; 3] [2] eq_refl) as (Hwf & _ & _ & Hsize).
  exact (conj Hwf Hsize).
Defined.

Section MapMore.
Context {Key T : Type}.
Variable comp : Key -> Key -> bool.
Hypothesis comp_swo : strict_weak_ordering comp.

(** X8. On a map, the signaling [find] returns a reference to the mapped
    value of an entry whose key is equivalent to the lookup key, and that
    entry is the only one with such a key; it throws [ElementNotFound]
    exactly when no entry has a key equivalent to the lookup key. *)
Theorem map_find_equivalent_key (m : list (Key * T)) (key : Key) :
  Map.well_formed comp m = true ->
  (forall r, Map.find comp m key = Returned r ->
     exists k v,
       read m r = Some (k, v) /\ equiv comp k key = true
       /\ Map.mapped m r = Some v
       /\ forall r' k' v', read m r' = Some (k', v') ->
                           equiv comp k' key = true -> r' = r)
  /\ (Map.find comp m key = Thrown ElementNotFound
      <-> forall entry, In entry m -> equiv comp (fst entry) key = false).
Proof.
  intros Hwf. rewrite map_find_mem. split.
  - intros r Hr.
    destruct (tree_mem fst comp m key) eqn:Hm; [|discriminate].
    injection Hr as <-.
    destruct (tree_mem_hit fst comp m key Hm) as ([k v] & Hnth & Hkv).
    cbn [fst] in Hkv. exists k, v. unfold Map.mapped. rewrite read_of_nat, Hnth.
    split; [reflexivity|]. split; [exact Hkv|]. split; [reflexivity|].
    intros r' k' v' Hr' Hk'.
    pose proof (read_bounds m r' (k', v') Hr') as [Hlo _]. unfold begin in Hlo.
    rewrite <- (Z2Nat.id r' Hlo), read_of_nat in Hr'.
    rewrite <- (Z2Nat.id r' Hlo). f_equal.
    apply (ordered_unique fst comp comp_swo m _ _ (k', v') (k, v) Hwf Hr' Hnth).
    cbn [fst]. rewrite (equiv_sym comp k key) in Hkv.
    exact (equiv_transitive comp comp_swo _ _ _ Hk' Hkv).
  - rewrite (tree_mem_existsb fst comp comp_swo m key Hwf).
    destruct (existsb (fun x => equiv comp (fst x) key) m) eqn:Hex.
    + split; [discriminate|]. intros Hall.
      apply existsb_exists in Hex as (entry & Hin & Hentry).
      rewrite (Hall entry Hin) in Hentry. discriminate.
    + split; [|reflexivity]. intros _ entry Hin.
      destruct (equiv comp (fst entry) key) eqn:Hentry; [|reflexivity].
      assert (Htrue : existsb (fun x => equiv comp (fst x) key) m = true)
        by (apply existsb_exists; now exists entry).
      rewrite Htrue in Hex. discriminate.
Qed.
End MapMore.

Lemma map_find_equivalent_key_witness :
  strict_weak_ordering abs_less
  /\ Map.well_formed abs_less [(1, 10); (-3, 30)] = true
  /\ Map.find abs_less [(1, 10); (-3, 30)] 3 = Returned 1
  /\ exists k v,
       read [(1, 10); (-3, 30)] 1 = Some (k, v) /\ equiv abs_less k 3 = true
       /\ Map.mapped [(1, 10); (-3, 30)] 1 = Some v
       /\ forall r' k' v', read [(1, 10); (-3, 30)] r' = Some (k', v') ->
                           equiv abs_less k' 3 = true -> r' = 1.
Proof.
  split; [exact abs_less_strict_weak_ordering|]. split; [reflexivity|].
  split; [reflexivity|].
  exact (proj1 (map_find_equivalent_key abs_less abs_less_strict_weak_ordering
                  [(1, 10); (-3, 30)] 3 eq_refl) 1 eq_refl).
Defined.

Section MapNothrowMore.
Context {Key : Type}.
Variable comp : Key -> Key -> bool.

(** X9. On a map that stores no null pointer, the non-signaling [find]
    returns [NULL] exactly when the key is absent, and otherwise a stored
    pointer. *)
Theorem map_find_nothrow_without_null (m : list (Key * pointer)) (key : Key) :
  (forall entry, In entry m -> snd entry <> NULL) ->
  (Map.find_nothrow comp m key nothrow = NULL <-> Map.contains comp m key = false)
  /\ (Map.contains comp m key = true ->
      exists k, In (k, Map.find_nothrow comp m key nothrow) m).
Proof.
  intros Hnonnull.
  rewrite map_find_nothrow_of_find, map_contains_of_find.
  destruct (Map.find comp m key) as [r|ex] eqn:Hfind.
  - destruct (map_find_mapped comp m key r Hfind) as [p Hp]. rewrite Hp.
    unfold Map.mapped in Hp.
    destruct (read m r) as [[k q]|] eqn:Hread; [|discriminate].
    cbn in Hp. injection Hp as ->.
    pose proof (read_In m r (k, p) Hread) as Hin.
    split.
    + split; [|discriminate]. intros Hnull.
      now destruct (Hnonnull (k, p) Hin).
    + intros _. now exists k.
  - split; [tauto|discriminate].
Qed.
End MapNothrowMore.

Lemma map_find_nothrow_without_null_witness :
  (forall entry, In entry [(1, 16); (4, 32)] -> snd entry <> NULL)
  /\ (Map.find_nothrow Z.ltb [(1, 16); (4, 32)] 3 nothrow = NULL
      <-> Map.contains Z.ltb [(1, 16); (4, 32)] 3 = false).
Proof.
  assert (H : forall entry, In entry [(1, 16); (4, 32)] -> snd entry <> NULL).
  { intros entry [<-|[<-|[]]]; discriminate. }
  split; [exact H|].
  exact (proj1 (map_find_nothrow_without_null Z.ltb [(1, 16); (4, 32)] 3 H)).
Defined.

Section GenericNothrowMore.
Context {Value Element : Type}.
Variable eqb : Value -> Element -> bool.
Variable to_pointer : Value -> pointer.

(** X10. Where no element of the container converts to the null pointer,
    the non-signaling generic [find] returns [NULL] exactly when no
    element compares equal to the target; when some element does, it
    returns that element converted to a pointer, for the first such
    element. *)
Theorem find_nothrow_without_null (c : list Value) (element : Element) :
  (forall v, In v c -> to_pointer v <> NULL) ->
  (Generic.find_nothrow eqb to_pointer c element nothrow = NULL
   <-> existsb (fun x => eqb x element) c = false)
  /\ (existsb (fun x => eqb x element) c = true ->
      exists v,
        nth_error c (first_index (fun x => eqb x element) c) = Some v
        /\ eqb v element = true
        /\ Generic.find_nothrow eqb to_pointer c element nothrow = to_pointer v).
Proof.
  intros Hnonnull. rewrite find_nothrow_position, <- first_index_existsb.
  destruct (Nat.ltb_spec (first_index (fun x => eqb x element) c) (length c))
    as [Hlt|Hge].
  - destruct (first_index_hit _ c Hlt) as (v & Hv & Hhit). rewrite Hv.
    split.
    + split; [|discriminate]. intros Hnull.
      now destruct (Hnonnull v (nth_error_In c _ Hv)).
    + intros _. now exists v.
  - assert (Hnone : nth_error c (first_index (fun x => eqb x element) c) = None)
      by now apply nth_error_None.
    rewrite Hnone. split; [tauto|discriminate].
Qed.
End GenericNothrowMore.

Lemma find_nothrow_without_null_witness :
  (forall v, In v [16; 32] -> (fun p : pointer => p) v <> NULL)
  /\ (Generic.find_nothrow Z.eqb (fun p : pointer => p) [16; 32] 48 nothrow = NULL
      <-> existsb (fun x => Z.eqb x 48) [16; 32] = false).
Proof.
  assert (H : forall v, In v [16; 32] -> (fun p : pointer => p) v <> NULL).
  { intros v [<-|[<-|[]]]; discriminate. }
  split; [exact H|].
  exact (proj1 (find_nothrow_without_null Z.eqb (fun p : pointer => p)
                  [16; 32] 48 H)).
Defined.

(** * Further properties of the autonomous iterator *)

Section CursorMore.
Local Abbreviation ctor := AutonomousIterator.ctor.
Local Abbreviation advance := AutonomousIterator.advance.
Local Abbreviation at_end := AutonomousIterator.end_.
Local Abbreviation equal := AutonomousIterator.equal.

(** X11. A cursor built over the whole of a container and moved forward
    [n] times, for [n] less than the size of the container, is not at its
    end and designates the element at position [n]: moved step by step it
    visits the elements in the order of the container. *)
Theorem cursor_visits_elements {Value : Type} (c : list Value) (n : nat) :
  (n < length c)%nat ->
  at_end (advance n (ctor (begin c) (end_ c))) = false
  /\ read c (AutonomousIterator.dereference (advance n (ctor (begin c) (end_ c))))
     = nth_error c n.
Proof.
  intros Hn. split.
  - rewrite end_advance. apply Z.eqb_neq. unfold begin, end_. lia.
  - unfold AutonomousIterator.dereference.
    destruct (advance_current n (begin c) (end_ c)) as [-> _].
    cbn [star position_iterator]. unfold begin.
    now rewrite Z.add_0_l, read_of_nat.
Qed.

(** X13. [operator==] compares the current positions only.  Two cursors
    built at the same position are equal exactly after the same number of
    moves forward, whatever their end positions; so cursors that are
    equal need not agree on [end()]. *)
Theorem cursor_equal_ignores_end (b e e' : iterator) :
  (forall n m : nat,
      equal (advance n (ctor b e)) (advance m (ctor b e')) = (n =? m)%nat)
  /\ (b <> e ->
      equal (ctor b b) (ctor b e) = true
      /\ at_end (ctor b b) = true
      /\ at_end (ctor b e) = false).
Proof.
  split.
  - intros n m. unfold AutonomousIterator.equal.
    destruct (advance_current n b e) as [-> _].
    destruct (advance_current m b e') as [-> _].
    cbn [iter_eqb position_iterator].
    destruct (Nat.eqb_spec n m) as [->|Hne]; [apply Z.eqb_refl|].
    apply Z.eqb_neq. lia.
  - intros Hne.
    unfold AutonomousIterator.equal, AutonomousIterator.end_, AutonomousIterator.ctor.
    cbn [AutonomousIterator._current AutonomousIterator._end
         iter_eqb position_iterator].
    rewrite Z.eqb_refl. repeat split. now apply Z.eqb_neq.
Qed.
End CursorMore.

Lemma cursor_visits_elements_witness :
  (1 < length [10; 20; 30])%nat
  /\ AutonomousIterator.end_
       (AutonomousIterator.advance 1
          (AutonomousIterator.ctor (begin [10; 20; 30]) (end_ [10; 20; 30])))
     = false
  /\ read [10; 20; 30]
       (AutonomousIterator.dereference
          (AutonomousIterator.advance 1
             (AutonomousIterator.ctor (begin [10; 20; 30]) (end_ [10; 20; 30]))))
     = nth_error [10; 20; 30] 1.
Proof.
  assert (H : (1 < length [10; 20; 30])%nat) by (cbn; lia).
  split; [exact H|].
  exact (cursor_visits_elements [10; 20; 30] 1 H).
Defined.

Lemma cursor_equal_ignores_end_witness :
  2 <> 5
  /\ AutonomousIterator.equal (AutonomousIterator.ctor 2 2) (AutonomousIterator.ctor 2 5)
     = true
  /\ AutonomousIterator.end_ (AutonomousIterator.ctor 2 2) = true
  /\ AutonomousIterator.end_ (AutonomousIterator.ctor 2 5) = false.
Proof.
  assert (H : 2 <> 5) by discriminate.
  split; [exact H|].
  exact (proj2 (cursor_equal_ignores_end 2 5 5) H).
Defined.
